(** * Memoization wrappers of the JavaScript workspace

    A shallow embedding of the caching wrappers of
    [Intermediate JavaScript/Closures/Memoization.js] (and of the
    [Map]-based [memoize] of the Map/Set notes), followed by the
    properties that the design notes state about them.

    Conventions of the embedding.
    - A JavaScript value is a [jsval]; numbers are the safe integers (as
      [Z]: of magnitude below 2^53, which print in plain decimal; negative
      zero, which prints as [0], is not among them).
    - A call of a wrapper is a function from the state before the call to
      an [outcome] (the completion: a returned value or a thrown one) and
      the state after it.
    - The wrapped function [fn] works on an environment [Ext] of its own
      (whatever it reads and writes, the clock included); it does not call
      back into the wrapper that holds it.  Wrapped functions that do, such
      as [fib], are in the module [NestedCalls].
    - Every invocation of [fn] is recorded in the [invoked] list of the
      [World], which is how "the computation ran" is observed. *)

From Stdlib Require Import ZArith NArith List Ascii String Floats Uint63.
From stdpp Require Import base option list strings pretty gmap.

Local Open Scope Z_scope.

#[local] Set Warnings "-register-all,-clear-no-such-hyp".

(** ** Values *)

Inductive jsval : Type :=
| JUndefined
| JNull
| JBool (b : bool)
| JNum (z : Z)
| JStr (s : string)
| JArr (elems : list jsval)
| JObj (props : list (string * jsval)).

(** A completion of a call: [return v] or [throw e]. *)
Inductive outcome : Type :=
| Returned (v : jsval)
| Thrown (e : jsval).

(** ** Strings: [Array.prototype.join], [ToString], [JSON.stringify] *)

Definition dquote : string := String "034"%char EmptyString.
Definition backslash : string := String "092"%char EmptyString.

(** [sep_join sep [s1; ...; sn]] is [s1 sep ... sep sn]. *)
Fixpoint sep_join (sep : string) (l : list string) : string :=
  match l with
  | [] => EmptyString
  | [s] => s
  | s :: rest => s +:+ sep +:+ sep_join sep rest
  end.

(** [ToString] on the modelled values.  An array prints as its elements
    joined by a comma, where [undefined] and [null] elements print as the
    empty string; a plain object prints as [[object Object]]. *)
Fixpoint ToString (v : jsval) : string :=
  match v with
  | JUndefined => "undefined"
  | JNull => "null"
  | JBool true => "true"
  | JBool false => "false"
  | JNum z => pretty z
  | JStr s => s
  | JArr elems =>
      sep_join ","
        (map (fun e => match e with
                       | JUndefined | JNull => EmptyString
                       | _ => ToString e
                       end) elems)
  | JObj _ => "[object Object]"
  end.

(** [args.join(sep)]. *)
Definition join (sep : string) (args : list jsval) : string :=
  sep_join sep
    (map (fun e => match e with
                   | JUndefined | JNull => EmptyString
                   | _ => ToString e
                   end) args).

Definition hex_digit (n : N) : ascii :=
  match n with
  | 0%N => "0" | 1%N => "1" | 2%N => "2" | 3%N => "3" | 4%N => "4"
  | 5%N => "5" | 6%N => "6" | 7%N => "7" | 8%N => "8" | 9%N => "9"
  | 10%N => "a" | 11%N => "b" | 12%N => "c" | 13%N => "d" | 14%N => "e"
  | _ => "f"
  end%char.

(** One code unit inside a JSON string literal. *)
Definition quote_char (c : ascii) : string :=
  let n := N_of_ascii c in
  if (n =? 8)%N then backslash +:+ "b"
  else if (n =? 9)%N then backslash +:+ "t"
  else if (n =? 10)%N then backslash +:+ "n"
  else if (n =? 12)%N then backslash +:+ "f"
  else if (n =? 13)%N then backslash +:+ "r"
  else if (n =? 34)%N then backslash +:+ dquote
  else if (n =? 92)%N then backslash +:+ backslash
  else if (n <? 32)%N then
    backslash +:+ "u00"
      +:+ String (hex_digit (n / 16)) (String (hex_digit (n mod 16)) EmptyString)
  else String c EmptyString.

Fixpoint quote_chars (s : string) : string :=
  match s with
  | EmptyString => EmptyString
  | String c rest => quote_char c +:+ quote_chars rest
  end.

Definition QuoteJSONString (s : string) : string :=
  dquote +:+ quote_chars s +:+ dquote.

(** [SerializeJSONProperty]: [None] stands for the [undefined] that
    [JSON.stringify] yields for a value with no JSON form.  Inside an array
    such an element is written [null]; inside an object the property is
    left out. *)
Fixpoint SerializeJSONProperty (v : jsval) : option string :=
  match v with
  | JUndefined => None
  | JNull => Some "null"
  | JBool true => Some "true"
  | JBool false => Some "false"
  | JNum z => Some (pretty z)
  | JStr s => Some (QuoteJSONString s)
  | JArr elems =>
      Some ("[" +:+ sep_join ","
                     (map (fun e => match SerializeJSONProperty e with
                                    | Some s => s
                                    | None => "null"
                                    end) elems)
                +:+ "]")
  | JObj props =>
      Some ("{" +:+ sep_join ","
                     (flat_map (fun kv => match SerializeJSONProperty (snd kv) with
                                          | Some s => [QuoteJSONString (fst kv) +:+ ":" +:+ s]
                                          | None => []
                                          end) props)
                +:+ "}")
  end.

(** [JSON.stringify(args)] for the rest-parameter array [args]. *)
Definition JSON_stringify (args : list jsval) : string :=
  "[" +:+ sep_join ","
            (map (fun e => match SerializeJSONProperty e with
                           | Some s => s
                           | None => "null"
                           end) args)
      +:+ "]".

(** ** The built-in [Map]: entries in insertion order, one per key *)

Section JsMap.
Context {K V : Type} `{EqDecision K}.

(** [map.get(k)]; [None] is the [undefined] of an absent key. *)
Fixpoint Map_get (k : K) (m : list (K * V)) : option V :=
  match m with
  | [] => None
  | (k', v) :: rest => if decide (k' = k) then Some v else Map_get k rest
  end.

(** [map.has(k)]. *)
Definition Map_has (k : K) (m : list (K * V)) : bool :=
  match Map_get k m with
  | Some _ => true
  | None => false
  end.

(** [map.set(k, v)]: a present key keeps its place and takes the new
    value, a new key goes to the end. *)
Fixpoint Map_set (k : K) (v : V) (m : list (K * V)) : list (K * V) :=
  match m with
  | [] => [(k, v)]
  | (k', v') :: rest =>
      if decide (k' = k) then (k, v) :: rest else (k', v') :: Map_set k v rest
  end.

(** [map.delete(k)]. *)
Fixpoint Map_delete (k : K) (m : list (K * V)) : list (K * V) :=
  match m with
  | [] => []
  | (k', v') :: rest =>
      if decide (k' = k) then rest else (k', v') :: Map_delete k rest
  end.

(** [map.size]. *)
Definition Map_size (m : list (K * V)) : nat := length m.

(** [map.keys()], in iteration order. *)
Definition Map_keys (m : list (K * V)) : list K := map fst m.

(** [map.keys().next().value]; [None] is the [undefined] of an exhausted
    iterator. *)
Definition Map_first_key (m : list (K * V)) : option K := head (Map_keys m).
End JsMap.

(** ** The world around a wrapper *)

Section Runtime.
Context {Ext Args : Type}.

(** [env] is the state the wrapped function and the clock live in,
    [invoked] lists the argument lists [fn] was invoked with, oldest
    first, and [console] the lines written by [console.log]. *)
Record World : Type := mkWorld {
  env : Ext;
  invoked : list Args;
  console : list string
}.

Definition console_log (line : string) (w : World) : World :=
  {| env := env w; invoked := invoked w; console := console w ++ [line] |}.

(** [fn(...args)]: run the wrapped function and record the invocation. *)
Definition invoke (fn : Args -> Ext -> outcome * Ext) (a : Args) (w : World)
  : outcome * World :=
  let '(r, e') := fn a (env w) in
  (r, {| env := e'; invoked := invoked w ++ [a]; console := console w |}).
End Runtime.

Arguments World : clear implicits.

(** ** [Number.prototype.toFixed(2)] on the double [hits / total * 100] *)

(** A counter as a JavaScript number (exact for counts below 2^53). *)
Definition Number_of_count (n : Z) : float :=
  PrimFloat.of_uint63 (Uint63.of_Z n).

Definition two_digits (n : Z) : string :=
  if n <? 10 then "0" +:+ pretty n else pretty n.

(** The integer [n >= 0] of hundredths, written with two decimals. *)
Definition fixed2 (n : Z) : string :=
  pretty (n / 100) +:+ "." +:+ two_digits (n mod 100).

(** For the double [m * 2^e], the integer [n] for which [n / 100] is
    closest to it, the larger one when two are equally close. *)
Definition hundredths (m : positive) (e : Z) : Z :=
  if 0 <=? e then 100 * Z.pos m * 2 ^ e
  else (200 * Z.pos m + 2 ^ (- e)) / 2 ^ (1 - e).

(** [x.toFixed(2)] for a double of magnitude below 10^21 (a percentage is
    at most 100). *)
Definition toFixed2 (x : float) : string :=
  match Prim2SF x with
  | S754_zero _ => "0.00"
  | S754_finite s m e =>
      (if s then "-" else EmptyString) +:+ fixed2 (hundredths m e)
  | S754_infinity false => "Infinity"
  | S754_infinity true => "-Infinity"
  | S754_nan => "NaN"
  end.

(** ** The wrappers of [Memoization.js] *)

(** The value stored by [memoizeWithTTL]: [{ value, timestamp }]. *)
Record ttl_entry : Type := mk_ttl_entry {
  value : jsval;
  timestamp : Z
}.

(** The fields of a [MemoizedFunction] besides [fn]. *)
Record MemoizedFunction : Type := mkMemoizedFunction {
  mf_cache : list (string * jsval);
  hits : Z;
  misses : Z
}.

(** The object returned by [stats()]. *)
Record Stats : Type := mkStats {
  stats_hits : Z;
  stats_misses : Z;
  stats_hitRate : string;
  stats_size : nat
}.

Section Memoization.
Context {Ext : Type}.

(** The wrapped function, its [name], and [Date.now()] as a reading of
    the environment. *)
Variable fn : list jsval -> Ext -> outcome * Ext.
Variable fn_name : string.
Variable Date_now : Ext -> Z.

Local Abbreviation W := (World Ext (list jsval)).

Definition computing_line (args : list jsval) : string :=
  "  [computing] " +:+ fn_name +:+ "(" +:+ join ", " args +:+ ")".

(** *** Example 1: [memoize]

    The cache is a plain object.  Its keys are [JSON.stringify] texts,
    which start with a bracket and so never name a property inherited
    from [Object.prototype] (lemma [JSON_stringify_not_inherited]):
    [key in cache] is the lookup of an own property. *)
Definition memoize (cache : gmap string jsval) (args : list jsval) (w : W)
  : outcome * gmap string jsval * W :=
  let key := JSON_stringify args in
  match cache !! key with
  | Some v =>
      let w := console_log ("  [cache hit] " +:+ key) w in
      (Returned v, cache, w)
  | None =>
      let w := console_log (computing_line args) w in
      match invoke fn args w with
      | (Returned result, w) => (Returned result, <[key := result]> cache, w)
      | (Thrown e, w) => (Thrown e, cache, w)
      end
  end.

(** *** Example 5: [memoizeWithTTL] *)
Definition memoizeWithTTL (ttlMs : Z) (cache : list (string * ttl_entry))
    (args : list jsval) (w : W)
  : outcome * list (string * ttl_entry) * W :=
  let key := JSON_stringify args in
  let cached := Map_get key cache in
  let recompute :=
    let w := console_log (computing_line args) w in
    match invoke fn args w with
    | (Returned result, w) =>
        (Returned result,
         Map_set key {| value := result; timestamp := Date_now (env w) |} cache,
         w)
    | (Thrown e, w) => (Thrown e, cache, w)
    end in
  match cached with
  | Some c =>
      if Date_now (env w) - timestamp c <? ttlMs then
        let w := console_log ("  [cache hit] " +:+ key) w in
        (Returned (value c), cache, w)
      else recompute
  | None => recompute
  end.

(** *** Example 6: [memoizeWithMaxSize] *)
Definition memoizeWithMaxSize (maxSize : Z) (cache : list (string * jsval))
    (args : list jsval) (w : W)
  : outcome * list (string * jsval) * W :=
  let key := JSON_stringify args in
  if Map_has key cache then
    let w := console_log ("  [cache hit] " +:+ key) w in
    let cache := Map_delete key cache in
    match invoke fn args w with
    | (Returned result, w) =>
        let cache := Map_set key result cache in
        (Returned (default JUndefined (Map_get key cache)), cache, w)
    | (Thrown e, w) => (Thrown e, cache, w)
    end
  else
    let w := console_log (computing_line args) w in
    match invoke fn args w with
    | (Returned result, w) =>
        let cache := Map_set key result cache in
        if Z.of_nat (Map_size cache) >? maxSize then
          match Map_first_key cache with
          | Some firstKey =>
              (Returned result, Map_delete firstKey cache,
               console_log ("  [evicted] " +:+ firstKey) w)
          | None =>
              (Returned result, cache, console_log "  [evicted] undefined" w)
          end
        else (Returned result, cache, w)
    | (Thrown e, w) => (Thrown e, cache, w)
    end.

(** *** Example 7: class [MemoizedFunction] *)

(** [new MemoizedFunction(fn)]. *)
Definition MemoizedFunction_new : MemoizedFunction :=
  {| mf_cache := []; hits := 0; misses := 0 |}.

Definition MemoizedFunction_call (this : MemoizedFunction) (args : list jsval) (w : W)
  : outcome * MemoizedFunction * W :=
  let key := JSON_stringify args in
  if Map_has key (mf_cache this) then
    let this := {| mf_cache := mf_cache this; hits := hits this + 1;
                   misses := misses this |} in
    let w := console_log ("  [cache hit] " +:+ key) w in
    (Returned (default JUndefined (Map_get key (mf_cache this))), this, w)
  else
    let this := {| mf_cache := mf_cache this; hits := hits this;
                   misses := misses this + 1 |} in
    let w := console_log (computing_line args) w in
    match invoke fn args w with
    | (Returned result, w) =>
        (Returned result,
         {| mf_cache := Map_set key result (mf_cache this); hits := hits this;
            misses := misses this |},
         w)
    | (Thrown e, w) => (Thrown e, this, w)
    end.

(** The text of [hitRate] before the percent sign. *)
Definition hitRate_text (hits total : Z) : string :=
  if total >? 0 then
    toFixed2 (PrimFloat.mul
                (PrimFloat.div (Number_of_count hits) (Number_of_count total))
                (Number_of_count 100))
  else "0".

Definition MemoizedFunction_stats (this : MemoizedFunction) : Stats :=
  let total := hits this + misses this in
  let hitRate := hitRate_text (hits this) total in
  {| stats_hits := hits this;
     stats_misses := misses this;
     stats_hitRate := hitRate +:+ "%";
     stats_size := Map_size (mf_cache this) |}.

Definition MemoizedFunction_clear (this : MemoizedFunction) (w : W)
  : MemoizedFunction * W :=
  ({| mf_cache := []; hits := hits this; misses := misses this |},
   console_log "  [cache cleared]" w).
End Memoization.

(** The names every plain object inherits from [Object.prototype]. *)
Definition Object_prototype_keys : list string :=
  [ "constructor"; "__defineGetter__"; "__defineSetter__"; "hasOwnProperty";
    "__lookupGetter__"; "__lookupSetter__"; "isPrototypeOf";
    "propertyIsEnumerable"; "toString"; "valueOf"; "__proto__";
    "toLocaleString" ].

(** ** The [Map]-based [memoize] of the Map and Set notes

    The cache is keyed by the argument itself; [K] is the type of the
    arguments and its decidable equality is the key comparison of [Map]. *)
Module MapMemo.
Section MapMemo.
Context {Ext K : Type} `{EqDecision K}.
Variable fn : K -> Ext -> outcome * Ext.

Definition memoize (cache : list (K * jsval)) (arg : K) (w : World Ext K)
  : outcome * list (K * jsval) * World Ext K :=
  if Map_has arg cache then
    (Returned (default JUndefined (Map_get arg cache)), cache, w)
  else
    match invoke fn arg w with
    | (Returned result, w) => (Returned result, Map_set arg result cache, w)
    | (Thrown e, w) => (Thrown e, cache, w)
    end.
End MapMemo.
End MapMemo.

(** ** Sequences of calls *)

Definition is_Returned (o : outcome) : Prop :=
  match o with
  | Returned _ => True
  | Thrown _ => False
  end.

Section Runs.
Context {Ext Args C : Type}.

(** Calls made one after the other on the same wrapper; the result lists
    the completions in call order. *)
Fixpoint run (call : C -> Args -> World Ext Args -> outcome * C * World Ext Args)
    (calls : list Args) (c : C) (w : World Ext Args)
  : list outcome * C * World Ext Args :=
  match calls with
  | [] => ([], c, w)
  | a :: rest =>
      let '(o, c, w) := call c a w in
      let '(os, c, w) := run call rest c w in
      (o :: os, c, w)
  end.
End Runs.

(** What a client does with a [MemoizedFunction]. *)
Inductive mf_op : Type :=
| OpCall (args : list jsval)
| OpStats
| OpClear.

Definition is_call (op : mf_op) : bool :=
  match op with
  | OpCall _ => true
  | _ => false
  end.

Section MemoizedFunctionRuns.
Context {Ext : Type}.
Variable fn : list jsval -> Ext -> outcome * Ext.
Variable fn_name : string.

Definition mf_step (this : MemoizedFunction) (op : mf_op)
    (w : World Ext (list jsval))
  : MemoizedFunction * World Ext (list jsval) :=
  match op with
  | OpCall args =>
      let '(_, this, w) := MemoizedFunction_call fn fn_name this args w in
      (this, w)
  | OpStats => (this, w)
  | OpClear => MemoizedFunction_clear this w
  end.

Fixpoint mf_run (ops : list mf_op) (this : MemoizedFunction)
    (w : World Ext (list jsval))
  : MemoizedFunction * World Ext (list jsval) :=
  match ops with
  | [] => (this, w)
  | op :: rest =>
      let '(this, w) := mf_step this op w in
      mf_run rest this w
  end.
End MemoizedFunctionRuns.

(** ** Wrapped functions used in the examples *)

(** [getUserById] of the source: [{ id: userId, name: `User${userId}` }]. *)
Definition getUserById (args : list jsval) (e : unit) : outcome * unit :=
  let userId := hd JUndefined args in
  (Returned (JObj [("id", userId); ("name", JStr ("User" +:+ ToString userId))]), e).

(** [expensiveAPI] of the source: [`Result for "${query}"`]. *)
Definition expensiveAPI (args : list jsval) (e : Z) : outcome * Z :=
  let query := hd JUndefined args in
  (Returned (JStr ("Result for " +:+ dquote +:+ ToString query +:+ dquote)), e).

(** A caller's function that fails on one input:
    [function rejectNull(x) { if (x === null) throw "null input"; return 1; }].
    Its environment is the clock. *)
Definition rejectNull (args : list jsval) (e : Z) : outcome * Z :=
  match hd JUndefined args with
  | JNull => (Thrown (JStr "null input"), e)
  | _ => (Returned (JNum 1), e)
  end.

(** The world a script starts in. *)
Definition world0 {Ext Args : Type} (e : Ext) : World Ext Args :=
  {| env := e; invoked := []; console := [] |}.

(** The same world at a later time of the clock. *)
Definition at_time {Args : Type} (t : Z) (w : World Z Args) : World Z Args :=
  {| env := t; invoked := invoked w; console := console w |}.

(** ** Example 4 of [Memoization.js]: [memoizeWithCustomKey] *)

(** What a call of the wrapper completes with: besides a returned value
    or a thrown one, the member of [Object.prototype] that [cache[key]]
    reads when [key] is the name of an inherited property (a built-in
    function, or for [__proto__] the prototype itself), which is no
    [jsval]. *)
Inductive custom_completion : Type :=
| CReturned (v : jsval)
| CInherited (name : string)
| CThrown (e : jsval).

Definition with_env {Ext Args : Type} (e : Ext) (w : World Ext Args)
  : World Ext Args :=
  {| env := e; invoked := invoked w; console := console w |}.

Section CustomKey.
Context {Ext : Type}.
Variable fn : list jsval -> Ext -> outcome * Ext.
Variable fn_name : string.

(** The caller's key generator; what it returns is used as a property
    key, that is, through [ToString]. *)
Variable keyGenerator : list jsval -> Ext -> outcome * Ext.

Definition memoizeWithCustomKey (cache : gmap string jsval) (args : list jsval)
    (w : World Ext (list jsval))
  : custom_completion * gmap string jsval * World Ext (list jsval) :=
  match keyGenerator args (env w) with
  | (Thrown e, e') => (CThrown e, cache, with_env e' w)
  | (Returned k, e') =>
      let w := with_env e' w in
      let key := ToString k in
      match cache !! key with
      | Some v =>
          (CReturned v, cache, console_log ("  [cache hit] key: " +:+ key) w)
      | None =>
          if bool_decide (key ∈ Object_prototype_keys) then
            (CInherited key, cache,
             console_log ("  [cache hit] key: " +:+ key) w)
          else
            let w := console_log ("  [computing] " +:+ fn_name
                                    +:+ " with key: " +:+ key) w in
            match invoke fn args w with
            | (Returned result, w) =>
                (CReturned result, <[key := result]> cache, w)
            | (Thrown e, w) => (CThrown e, cache, w)
            end
      end
  end.

(** Calls made one after the other on the same wrapper. *)
Fixpoint run_customKey (calls : list (list jsval)) (cache : gmap string jsval)
    (w : World Ext (list jsval))
  : list custom_completion * gmap string jsval * World Ext (list jsval) :=
  match calls with
  | [] => ([], cache, w)
  | a :: rest =>
      let '(o, cache, w) := memoizeWithCustomKey cache a w in
      let '(os, cache, w) := run_customKey rest cache w in
      (o :: os, cache, w)
  end.
End CustomKey.

(** ** Wrapped functions that call the wrapper

    A function handed to a wrapper may call the memoized function that
    holds it, as [fib] does in the Map and Set notes.  Such a function is
    given the memoized function [f] as its first argument, and it works on
    the store as well as on the world, since the calls it makes through [f]
    change both.  A result of [None] says that the calls nest deeper than
    the fuel allows. *)

(** The world when [fn(...args)] starts: the invocation is recorded. *)
Definition enter {Ext Args : Type} (a : Args) (w : World Ext Args)
  : World Ext Args :=
  {| env := env w; invoked := invoked w ++ [a]; console := console w |}.

(** What a call completes with when the returned values have type [R]. *)
Inductive result_of (R : Type) : Type :=
| Ret (r : R)
| Throw (e : jsval).

Arguments Ret {R} r.
Arguments Throw {R} e.

Module NestedCalls.
Section MaxSize.
Context {Ext : Type}.
Variable fn :
  (list jsval -> list (string * jsval) * World Ext (list jsval) ->
   option (outcome * (list (string * jsval) * World Ext (list jsval)))) ->
  list jsval -> list (string * jsval) * World Ext (list jsval) ->
  option (outcome * (list (string * jsval) * World Ext (list jsval))).
Variable fn_name : string.

(** Example 6 of [Memoization.js], the function returned by
    [memoizeWithMaxSize(fn, maxSize)], with the store as part of the
    state. *)
Fixpoint memoizeWithMaxSize (fuel : nat) (maxSize : Z) (args : list jsval)
    (st : list (string * jsval) * World Ext (list jsval))
  : option (outcome * (list (string * jsval) * World Ext (list jsval))) :=
  match fuel with
  | O => None
  | S fuel =>
      let '(cache, w) := st in
      let key := JSON_stringify args in
      if Map_has key cache then
        let w := console_log ("  [cache hit] " +:+ key) w in
        let cache := Map_delete key cache in
        match fn (memoizeWithMaxSize fuel maxSize) args (cache, enter args w) with
        | None => None
        | Some (Returned result, (cache, w)) =>
            let cache := Map_set key result cache in
            Some (Returned (default JUndefined (Map_get key cache)), (cache, w))
        | Some (Thrown e, st) => Some (Thrown e, st)
        end
      else
        let w := console_log (computing_line fn_name args) w in
        match fn (memoizeWithMaxSize fuel maxSize) args (cache, enter args w) with
        | None => None
        | Some (Returned result, (cache, w)) =>
            let cache := Map_set key result cache in
            if Z.of_nat (Map_size cache) >? maxSize then
              match Map_first_key cache with
              | Some firstKey =>
                  Some (Returned result,
                        (Map_delete firstKey cache,
                         console_log ("  [evicted] " +:+ firstKey) w))
              | None =>
                  Some (Returned result,
                        (cache, console_log "  [evicted] undefined" w))
              end
            else Some (Returned result, (cache, w))
        | Some (Thrown e, st) => Some (Thrown e, st)
        end
  end.
End MaxSize.

(** A function that does not call the wrapper, as one that could. *)
Definition not_calling_back {Ext C : Type}
    (fn : list jsval -> Ext -> outcome * Ext)
    (f : list jsval -> C * World Ext (list jsval) ->
         option (outcome * (C * World Ext (list jsval))))
    (args : list jsval) (st : C * World Ext (list jsval))
  : option (outcome * (C * World Ext (list jsval))) :=
  let '(cache, w) := st in
  let '(o, e') := fn args (env w) in
  Some (o, (cache, with_env e' w)).

(** A caller's function that calls the memoized function [f] it is
    wrapped in:
    [function countDown(n) {
       if (typeof n !== "number" || n <= 0) return 0;
       f(n - 1);
       return n;
     }]. *)
Definition countDown {Ext C : Type}
    (f : list jsval -> C * World Ext (list jsval) ->
         option (outcome * (C * World Ext (list jsval))))
    (args : list jsval) (st : C * World Ext (list jsval))
  : option (outcome * (C * World Ext (list jsval))) :=
  match hd JUndefined args with
  | JNum n =>
      if n <=? 0 then Some (Returned (JNum 0), st)
      else
        match f [JNum (n - 1)] st with
        | None => None
        | Some (Returned _, st) => Some (Returned (JNum n), st)
        | Some (Thrown e, st) => Some (Thrown e, st)
        end
  | _ => Some (Returned (JNum 0), st)
  end.

Section MapMemoize.
Context {Ext K R : Type} `{EqDecision K}.
Variable fn :
  (K -> list (K * R) * World Ext K ->
   option (result_of R * (list (K * R) * World Ext K))) ->
  K -> list (K * R) * World Ext K ->
  option (result_of R * (list (K * R) * World Ext K)).

(** The function returned by the [Map]-based [memoize(fn)] of the Map
    and Set notes; [cache.has(arg)] holds exactly when [cache.get(arg)]
    finds a value. *)
Fixpoint memoize (fuel : nat) (arg : K) (st : list (K * R) * World Ext K)
  : option (result_of R * (list (K * R) * World Ext K)) :=
  match fuel with
  | O => None
  | S fuel =>
      let '(cache, w) := st in
      match Map_get arg cache with
      | Some v => Some (Ret v, (cache, w))
      | None =>
          match fn (memoize fuel) arg (cache, enter arg w) with
          | None => None
          | Some (Ret result, (cache, w)) =>
              Some (Ret result, (Map_set arg result cache, w))
          | Some (Throw e, st) => Some (Throw e, st)
          end
      end
  end.
End MapMemoize.

(** The function wrapped into [fib] in the Map and Set notes, on integer
    numbers:
    [function(n) { if (n <= 1) return n; return fib(n - 1) + fib(n - 2); }]. *)
Definition fib_body {Ext : Type}
    (fib : Z -> list (Z * Z) * World Ext Z ->
           option (result_of Z * (list (Z * Z) * World Ext Z)))
    (n : Z) (st : list (Z * Z) * World Ext Z)
  : option (result_of Z * (list (Z * Z) * World Ext Z)) :=
  if n <=? 1 then Some (Ret n, st)
  else
    match fib (n - 1) st with
    | None => None
    | Some (Throw e, st) => Some (Throw e, st)
    | Some (Ret a, st) =>
        match fib (n - 2) st with
        | None => None
        | Some (Throw e, st) => Some (Throw e, st)
        | Some (Ret b, st) => Some (Ret (a + b), st)
        end
    end.

(** [const fib = memoize(function(n) { ... })]. *)
Definition fib {Ext : Type} (fuel : nat) (n : Z)
    (st : list (Z * Z) * World Ext Z)
  : option (result_of Z * (list (Z * Z) * World Ext Z)) :=
  memoize fib_body fuel n st.
End NestedCalls.

(** The Fibonacci numbers. *)
Fixpoint Fibonacci_pair (n : nat) : Z * Z :=
  match n with
  | O => (0, 1)
  | S n => let '(a, b) := Fibonacci_pair n in (b, a + b)
  end.

Definition Fibonacci (n : nat) : Z := fst (Fibonacci_pair n).

(** The store after [fib(n)] on a new wrapper, in insertion order. *)
Fixpoint fib_store (n : nat) : list (Z * Z) :=
  match n with
  | 0%nat => [(0, 0)]
  | 1%nat => [(1, 1)]
  | 2%nat => [(1, 1); (0, 0); (2, 1)]
  | S (S (S _) as m) => fib_store m ++ [(Z.of_nat (S m), Fibonacci (S m))]
  end.

(** The arguments the wrapped function is run with during [fib(n)] on a
    new wrapper, in the order in which the runs start. *)
Definition fib_runs (n : nat) : list Z :=
  match n with
  | 0%nat => [0]
  | 1%nat => [1]
  | _ => map Z.of_nat (rev (seq 0 (S n)))
  end.

(** ** Sets, frequencies and the clock of the Map and Set notes *)

Module Collections.
Section Collections.
Context {K : Type} `{EqDecision K}.

(** A [Set] is the list of its values in iteration (insertion) order. *)

(** [set.has(x)]. *)
Definition Set_has (x : K) (s : list K) : bool := bool_decide (x ∈ s).

(** [set.add(x)]: a value already in the set is ignored. *)
Definition Set_add (x : K) (s : list K) : list K :=
  if Set_has x s then s else s ++ [x].

(** [new Set(iterable)]. *)
Definition Set_from (items : list K) : list K :=
  foldl (fun s x => Set_add x s) [] items.

(** [new Set([...setA, ...setB])]. *)
Definition union (setA setB : list K) : list K :=
  Set_from (setA ++ setB).

(** [new Set([...setA].filter(x => setB.has(x)))]. *)
Definition intersection (setA setB : list K) : list K :=
  Set_from (List.filter (fun x => Set_has x setB) setA).

(** [new Set([...setA].filter(x => !setB.has(x)))]. *)
Definition difference (setA setB : list K) : list K :=
  Set_from (List.filter (fun x => negb (Set_has x setB)) setA).

(** [freq.get(item) || 0], on counts. *)
Definition or_zero (x : option Z) : Z :=
  match x with
  | Some n => if n =? 0 then 0 else n
  | None => 0
  end.

Definition countFrequencies (arr : list K) : list (K * Z) :=
  foldl (fun freq item => Map_set item (or_zero (Map_get item freq) + 1) freq)
        [] arr.
End Collections.
End Collections.

(** [JSClock], as a function of what [getHours()], [getMinutes()] and
    [getSeconds()] return; [%] is the remainder with the sign of the
    dividend. *)
Definition JSClock (hour minute second : Z) : string :=
  let temp := pretty (Z.rem hour 12) in
  let temp := if decide (temp = "0") then "12" else temp in
  let temp := temp +:+ (if minute <? 10 then ":0" else ":") +:+ pretty minute in
  let temp := temp +:+ (if second <? 10 then ":0" else ":") +:+ pretty second in
  let temp := temp +:+ (if hour >=? 12 then " P.M." else " A.M.") in
  temp.

(** ** Reference definitions for the statements *)


(** The calls whose key was neither in [seen] nor used by an earlier
    call. *)
Fixpoint first_per_key (seen : gset string) (calls : list (list jsval))
  : list (list jsval) :=
  match calls with
  | [] => []
  | a :: rest =>
      if decide (JSON_stringify a ∈ seen) then first_per_key seen rest
      else a :: first_per_key ({[JSON_stringify a]} ∪ seen) rest
  end.

(** [Number.isSafeInteger]: the integers that a double holds exactly and
    that print with all their digits. *)
Definition safe_integer (z : Z) : Prop := - 2 ^ 53 < z < 2 ^ 53.

(** The characters of a printed integer: the digits and the sign. *)
Definition is_number_char (c : ascii) : bool :=
  let n := N_of_ascii c in
  ((48 <=? n) && (n <=? 57))%N || (n =? 45)%N.

Fixpoint all_chars (P : ascii -> bool) (s : string) : bool :=
  match s with
  | EmptyString => true
  | String c rest => P c && all_chars P rest
  end.

(** The value of a decimal digit. *)
Definition digit_of (c : ascii) : option Z :=
  let n := Z.of_N (N_of_ascii c) - 48 in
  if (0 <=? n) && (n <=? 9) then Some n else None.

Definition two_digit_number (c1 c2 : ascii) : option Z :=
  match digit_of c1, digit_of c2 with
  | Some a, Some b => Some (10 * a + b)
  | _, _ => None
  end.

(** Reading [mm:ss X.M.] after the hour [h12] of a 12-hour clock text. *)
Definition read_clock_tail (h12 : Z) (s : string) : option (Z * Z * Z) :=
  match s with
  | String m1 (String m2 (String ":" (String s1 (String s2 (String " "
      (String ap (String "." (String "M" (String "." EmptyString))))))))) =>
      match two_digit_number m1 m2, two_digit_number s1 s2 with
      | Some m, Some s =>
          if decide (ap = "A"%char) then Some (h12 mod 12, m, s)
          else if decide (ap = "P"%char) then Some (h12 mod 12 + 12, m, s)
          else None
      | _, _ => None
      end
  | _ => None
  end.

(** Reading back the time of day from a text of [JSClock]. *)
Definition read_clock (s : string) : option (Z * Z * Z) :=
  match s with
  | String h1 (String ":" rest) =>
      match digit_of h1 with
      | Some h => read_clock_tail h rest
      | None => None
      end
  | String h1 (String h2 (String ":" rest)) =>
      match two_digit_number h1 h2 with
      | Some h => read_clock_tail h rest
      | None => None
      end
  | _ => None
  end.

(** ** Scenarios used in the examples *)

(** The store after [expensiveAPI("a")] was memoized at time 0. *)
Definition ttl_cache_a : list (string * ttl_entry) :=
  snd (fst (memoizeWithTTL expensiveAPI "expensiveAPI" id 1000 []
              [JStr "a"] (world0 0))).

(** The store after [rejectNull(undefined)] was memoized at time 0: the
    key [[null]] holds 1. *)
Definition ttl_cache_null : list (string * ttl_entry) :=
  snd (fst (memoizeWithTTL rejectNull "rejectNull" id 1000 []
              [JUndefined] (world0 0))).


(** * Properties *)

(** ** The string functions on sample inputs *)

Example JSON_stringify_2_3 :
  JSON_stringify [JNum 2; JNum 3] = "[2,3]".
Proof. reflexivity. Qed.

Example JSON_stringify_user :
  JSON_stringify [JObj [("id", JNum 1); ("gone", JUndefined); ("name", JStr "User1")];
                  JStr "a"; JArr [JNum (-4); JUndefined]]
  = "[{" +:+ dquote +:+ "id" +:+ dquote +:+ ":1," +:+ dquote +:+ "name" +:+ dquote
      +:+ ":" +:+ dquote +:+ "User1" +:+ dquote +:+ "}," +:+ dquote +:+ "a" +:+ dquote
      +:+ ",[-4,null]]".
Proof. reflexivity. Qed.

Example join_mixed :
  join ", " [JNum 2; JNull; JStr "x"; JArr [JNum 1; JNum 2]; JObj []]
  = "2, , x, 1,2, [object Object]".
Proof. reflexivity. Qed.

Example toFixed2_two_thirds :
  toFixed2 (PrimFloat.mul (PrimFloat.div (Number_of_count 2) (Number_of_count 3))
                          (Number_of_count 100)) = "66.67".
Proof. reflexivity. Qed.

Example toFixed2_one_eighth :
  toFixed2 (PrimFloat.mul (PrimFloat.div (Number_of_count 1) (Number_of_count 800))
                          (Number_of_count 100)) = "0.13".
Proof. reflexivity. Qed.

Example toFixed2_23_of_160 :
  toFixed2 (PrimFloat.mul (PrimFloat.div (Number_of_count 23) (Number_of_count 160))
                          (Number_of_count 100)) = "14.37".
Proof. reflexivity. Qed.


(** ** Keys *)

Lemma JSON_stringify_bracket (args : list jsval) :
  exists rest, JSON_stringify args = String "[" rest.
Proof. unfold JSON_stringify. simpl. eauto. Qed.

(** A key of [memoize] is never the name of an inherited property, so
    [key in cache] only ever finds what the wrapper stored. *)
Lemma JSON_stringify_not_inherited (args : list jsval) :
  JSON_stringify args ∉ Object_prototype_keys.
Proof.
  destruct (JSON_stringify_bracket args) as [rest ->].
  unfold Object_prototype_keys. intros H.
  repeat (apply elem_of_cons in H as [H | H]; [discriminate H |]).
  by apply elem_of_nil in H.
Qed.

Lemma JSON_stringify_undefined : JSON_stringify [JUndefined] = "[null]".
Proof. reflexivity. Qed.

Lemma JSON_stringify_null : JSON_stringify [JNull] = "[null]".
Proof. reflexivity. Qed.

(** ** The [Map] operations *)

Lemma filter_keeps_all {A : Type} (P : A -> Prop) `{forall x, Decision (P x)}
    (l : list A) :
  (forall x, x ∈ l -> P x) -> filter P l = l.
Proof.
  induction l as [| a l IH]; intros Hall; [done |].
  rewrite filter_cons_True by (apply Hall; left).
  f_equal. apply IH. intros x Hx. apply Hall. by right.
Qed.

Section JsMapFacts.
Context {K V : Type} `{EqDecision K}.
Implicit Types (k : K) (v : V) (m : list (K * V)).

Lemma Map_get_None k m : Map_get k m = None <-> k ∉ Map_keys m.
Proof.
  induction m as [| [k' v'] m IH]; simpl.
  - split; [intros _; apply not_elem_of_nil | reflexivity].
  - destruct (decide (k' = k)) as [-> | Hne].
    + split; [discriminate | intros Hn; exfalso; apply Hn; left].
    + rewrite IH, not_elem_of_cons. split; [intros Hn; split; congruence | tauto].
Qed.

Lemma Map_has_false k m : Map_has k m = false <-> k ∉ Map_keys m.
Proof.
  unfold Map_has. rewrite <- Map_get_None.
  destruct (Map_get k m); split; congruence.
Qed.

Lemma Map_has_true k m : Map_has k m = true <-> k ∈ Map_keys m.
Proof.
  destruct (Map_has k m) eqn:Hh.
  - split; [intros _ | done].
    destruct (decide (k ∈ Map_keys m)) as [| Hn]; [done |].
    apply Map_has_false in Hn. congruence.
  - split; [done |]. intros Hin. apply Map_has_false in Hh. done.
Qed.

Lemma Map_set_fresh k v m : k ∉ Map_keys m -> Map_set k v m = m ++ [(k, v)].
Proof.
  induction m as [| [k' v'] m IH]; simpl; [done |].
  rewrite not_elem_of_cons. intros [Hne Hn].
  destruct (decide (k' = k)); [congruence |]. by rewrite IH.
Qed.

Lemma Map_get_set k v m : Map_get k (Map_set k v m) = Some v.
Proof.
  induction m as [| [k' v'] m IH]; simpl.
  - by destruct (decide (k = k)).
  - destruct (decide (k' = k)) as [-> | Hne]; simpl.
    + by destruct (decide (k = k)).
    + by destruct (decide (k' = k)).
Qed.

Lemma Map_get_set_ne k k' v m :
  k <> k' -> Map_get k' (Map_set k v m) = Map_get k' m.
Proof.
  intros Hne. induction m as [| [k0 v0] m IH]; simpl.
  - by destruct (decide (k = k')).
  - destruct (decide (k0 = k)) as [-> | Hne0]; simpl.
    + destruct (decide (k = k')); [done |]. done.
    + destruct (decide (k0 = k')); [done | apply IH].
Qed.

Lemma Map_size_set_present k v m :
  k ∈ Map_keys m -> Map_size (Map_set k v m) = Map_size m.
Proof.
  unfold Map_size. induction m as [| [k' v'] m IH]; simpl.
  - intros Hin. by apply elem_of_nil in Hin.
  - intros Hin. destruct (decide (k' = k)); simpl; [done |].
    apply elem_of_cons in Hin as [-> | Hin]; [done |]. by rewrite IH.
Qed.

Lemma Map_size_set_le k v m : (Map_size (Map_set k v m) <= S (Map_size m))%nat.
Proof.
  unfold Map_size. induction m as [| [k' v'] m IH]; simpl; [lia |].
  destruct (decide (k' = k)); simpl; lia.
Qed.

Lemma Map_size_delete_le k m : (Map_size (Map_delete k m) <= Map_size m)%nat.
Proof.
  unfold Map_size. induction m as [| [k' v'] m IH]; simpl; [lia |].
  destruct (decide (k' = k)); simpl; lia.
Qed.

Lemma Map_size_delete_present k m :
  k ∈ Map_keys m -> S (Map_size (Map_delete k m)) = Map_size m.
Proof.
  unfold Map_size. induction m as [| [k' v'] m IH]; simpl.
  - intros Hin. by apply elem_of_nil in Hin.
  - intros Hin. destruct (decide (k' = k)); simpl; [done |].
    apply elem_of_cons in Hin as [-> | Hin]; [done |]. by rewrite IH.
Qed.

Lemma Map_keys_delete k m :
  NoDup (Map_keys m) ->
  Map_keys (Map_delete k m) = filter (fun k' => k' <> k) (Map_keys m).
Proof.
  induction m as [| [k' v'] m IH]; simpl; [done |].
  intros Hnd. apply NoDup_cons in Hnd as [Hnotin Hnd].
  destruct (decide (k' = k)) as [-> | Hne].
  - rewrite filter_cons_False by (intros Hc; by apply Hc).
    symmetry. apply filter_keeps_all. intros x Hx ->. done.
  - rewrite filter_cons_True by done. simpl. by rewrite IH.
Qed.

Lemma Map_keys_set_present k v m :
  k ∈ Map_keys m -> Map_keys (Map_set k v m) = Map_keys m.
Proof.
  induction m as [| [k' v'] m IH]; simpl.
  - intros Hin. by apply elem_of_nil in Hin.
  - intros Hin. destruct (decide (k' = k)) as [-> | Hne]; simpl; [done |].
    apply elem_of_cons in Hin as [-> | Hin]; [done |]. by rewrite IH.
Qed.


Lemma Map_keys_app m1 m2 : Map_keys (m1 ++ m2) = Map_keys m1 ++ Map_keys m2.
Proof. unfold Map_keys. apply map_app. Qed.
End JsMapFacts.

(** ** The wrapped function and the console *)

Section RuntimeFacts.
Context {Ext Args : Type}.
Variable fn : Args -> Ext -> outcome * Ext.

Lemma invoke_invoked (a : Args) (w w' : World Ext Args) (o : outcome) :
  invoke fn a w = (o, w') ->
  invoked w' = invoked w ++ [a] /\ console w' = console w
  /\ (o, env w') = fn a (env w).
Proof.
  unfold invoke. destruct (fn a (env w)) as [r e'].
  intros [= <- <-]. done.
Qed.

Lemma console_log_invoked (line : string) (w : World Ext Args) :
  invoked (console_log line w) = invoked w.
Proof. reflexivity. Qed.

Lemma console_log_env (line : string) (w : World Ext Args) :
  env (console_log line w) = env w.
Proof. reflexivity. Qed.
End RuntimeFacts.

(** ** [memoize] *)

Section MemoizeFacts.
Context {Ext : Type}.
Variable fn : list jsval -> Ext -> outcome * Ext.
Variable fn_name : string.
Local Abbreviation W := (World Ext (list jsval)).

(** A call that finds its key returns the stored value and leaves the
    wrapped function alone. *)
Lemma memoize_hit (cache : gmap string jsval) (args : list jsval) (w : W) (v : jsval) :
  cache !! JSON_stringify args = Some v ->
  memoize fn fn_name cache args w
  = (Returned v, cache, console_log ("  [cache hit] " +:+ JSON_stringify args) w).
Proof. intros Hc. unfold memoize. by rewrite Hc. Qed.

(** After a call that returned, the key holds the returned value. *)
Lemma memoize_returned_stored (cache c1 : gmap string jsval) (args : list jsval)
    (w w1 : W) (v : jsval) :
  memoize fn fn_name cache args w = (Returned v, c1, w1) ->
  c1 !! JSON_stringify args = Some v.
Proof.
  unfold memoize. destruct (cache !! JSON_stringify args) as [v0 |] eqn:Hc.
  - intros [= <- <- _]. done.
  - destruct (invoke fn args _) as [[r | e] w2]; intros [= <- <- _].
    apply lookup_insert_eq.
Qed.

(** A first call that misses and returns runs [fn] once; the same call
    made again, in whatever world, returns the same value without running
    [fn]. *)
Lemma memoize_twice (cache c1 : gmap string jsval) (args : list jsval)
    (w w1 w2 : W) (v : jsval) :
  cache !! JSON_stringify args = None ->
  memoize fn fn_name cache args w = (Returned v, c1, w1) ->
  invoked w1 = invoked w ++ [args]
  /\ exists w3, memoize fn fn_name c1 args w2 = (Returned v, c1, w3)
                /\ invoked w3 = invoked w2.
Proof.
  intros Hnone Hcall. split.
  - revert Hcall. unfold memoize. rewrite Hnone.
    destruct (invoke fn args _) as [[r | e] w'] eqn:Hi; intros [= _ _ <-].
    apply invoke_invoked in Hi as (Hi & _ & _). by rewrite Hi.
  - apply memoize_returned_stored in Hcall.
    eexists. split; [by apply memoize_hit | done].
Qed.


(** C10: [JSON.stringify] writes both [[undefined]] and [[null]] as
    [[null]], so after a call of the memoized function with the single
    argument [undefined] that returned [v], a call with the single argument
    [null] finds that entry: it returns [v], leaves the cache as it is and
    does not run the wrapped function (the world only gains the
    cache-hit line). *)
Theorem C10_undefined_and_null_share_a_key
    (cache c1 : gmap string jsval) (w w1 w2 : W) (v : jsval) :
  memoize fn fn_name cache [JUndefined] w = (Returned v, c1, w1) ->
  JSON_stringify [JUndefined] = "[null]"
  /\ JSON_stringify [JNull] = "[null]"
  /\ memoize fn fn_name c1 [JNull] w2
     = (Returned v, c1, console_log "  [cache hit] [null]" w2).
Proof.
  intros Hcall. split; [reflexivity |]. split; [reflexivity |].
  apply memoize_returned_stored in Hcall.
  change (JSON_stringify [JUndefined]) with (JSON_stringify [JNull]) in Hcall.
  by rewrite (memoize_hit _ _ _ _ Hcall).
Qed.
End MemoizeFacts.

Lemma C10_witness :
  JSON_stringify [JUndefined] = "[null]"
  /\ JSON_stringify [JNull] = "[null]"
  /\ memoize getUserById "getUserById"
       (<["[null]" := JObj [("id", JUndefined); ("name", JStr "Userundefined")]]> ∅)
       [JNull] (world0 tt)
     = (Returned (JObj [("id", JUndefined); ("name", JStr "Userundefined")]),
        <["[null]" := JObj [("id", JUndefined); ("name", JStr "Userundefined")]]> ∅,
        console_log "  [cache hit] [null]" (world0 tt)).
Proof.
  eapply (C10_undefined_and_null_share_a_key getUserById "getUserById"
            ∅ _ (world0 tt) _ (world0 tt)).
  reflexivity.
Defined.

(** ** [memoizeWithTTL] *)

Section TTLFacts.
Context {Ext : Type}.
Variable fn : list jsval -> Ext -> outcome * Ext.
Variable fn_name : string.
Variable Date_now : Ext -> Z.
Local Abbreviation W := (World Ext (list jsval)).

(** What a call does when it does not answer from the cache. *)
Lemma memoizeWithTTL_recompute (ttlMs : Z) (cache c' : list (string * ttl_entry))
    (args : list jsval) (w w' : W) (o : outcome) :
  match Map_get (JSON_stringify args) cache with
  | Some c => ttlMs <= Date_now (env w) - timestamp c
  | None => True
  end ->
  memoizeWithTTL fn fn_name Date_now ttlMs cache args w = (o, c', w') ->
  invoked w' = invoked w ++ [args]
  /\ o = fst (fn args (env w))
  /\ match o with
     | Returned r =>
         c' = Map_set (JSON_stringify args)
                {| value := r; timestamp := Date_now (env w') |} cache
     | Thrown _ => c' = cache
     end.
Proof.
  intros Hexp. unfold memoizeWithTTL. cbv zeta.
  destruct (Map_get (JSON_stringify args) cache) as [c |];
    [destruct (Z.ltb_spec (Date_now (env w) - timestamp c) ttlMs); [lia |] |];
    (destruct (invoke fn args _) as [r w2] eqn:Hi;
     apply invoke_invoked in Hi as (Hinv & _ & Hf); simpl in Hinv, Hf;
     destruct r as [r | e]; intros [= <- <- <-];
     (split; [done |]); (split; [by rewrite <- Hf | done])).
Qed.



(** A call whose computation throws leaves the store as it was. *)
Lemma memoizeWithTTL_thrown (ttlMs : Z) (cache c' : list (string * ttl_entry))
    (args : list jsval) (w w' : W) (e : jsval) :
  memoizeWithTTL fn fn_name Date_now ttlMs cache args w = (Thrown e, c', w') ->
  c' = cache /\ invoked w' = invoked w ++ [args].
Proof.
  intros Hcall.
  assert (match Map_get (JSON_stringify args) cache with
          | Some c => ttlMs <= Date_now (env w) - timestamp c
          | None => True
          end) as Hexp.
  { revert Hcall. unfold memoizeWithTTL.
    destruct (Map_get _ cache) as [c |]; [| done].
    destruct (Z.ltb_spec (Date_now (env w) - timestamp c) ttlMs); [| done].
    intros [=]. }
  by apply (memoizeWithTTL_recompute _ _ _ _ _ _ _ Hexp) in Hcall as (? & _ & ?).
Qed.
End TTLFacts.




(** ** Runs *)

Section RunFacts.
Context {Ext Args C : Type}.
Variable call : C -> Args -> World Ext Args -> outcome * C * World Ext Args.

Lemma run_app (l1 l2 : list Args) (c : C) (w : World Ext Args) :
  run call (l1 ++ l2) c w
  = let '(os1, c1, w1) := run call l1 c w in
    let '(os2, c2, w2) := run call l2 c1 w1 in
    (os1 ++ os2, c2, w2).
Proof.
  revert c w. induction l1 as [| a l1 IH]; intros c w; simpl.
  - by destruct (run call l2 c w) as [[os2 c2] w2].
  - destruct (call c a w) as [[o c0] w0]. rewrite IH.
    destruct (run call l1 c0 w0) as [[os1 c1] w1].
    by destruct (run call l2 c1 w1) as [[os2 c2] w2].
Qed.

(** A property of the cache that every call preserves holds after any
    sequence of calls. *)
Lemma run_preserves (P : C -> Prop) :
  (forall c a w, P c -> P (snd (fst (call c a w)))) ->
  forall calls c w, P c -> P (snd (fst (run call calls c w))).
Proof.
  intros Hstep calls. induction calls as [| a calls IH]; intros c w Hc; [done |].
  simpl. pose proof (Hstep c a w Hc) as H1.
  destruct (call c a w) as [[o c0] w0]. simpl in H1.
  pose proof (IH c0 w0 H1) as H2.
  by destruct (run call calls c0 w0) as [[os c1] w1].
Qed.
End RunFacts.

(** ** [memoizeWithMaxSize] *)

Section MaxSizeFacts.
Context {Ext : Type}.
Variable fn : list jsval -> Ext -> outcome * Ext.
Variable fn_name : string.
Local Abbreviation W := (World Ext (list jsval)).


(** The call on a key that is in the store. *)
Lemma memoizeWithMaxSize_present (maxSize : Z) (cache : list (string * jsval))
    (args : list jsval) (w : W) :
  Map_has (JSON_stringify args) cache = true ->
  memoizeWithMaxSize fn fn_name maxSize cache args w
  = match invoke fn args
            (console_log ("  [cache hit] " +:+ JSON_stringify args) w) with
    | (Returned r, w') =>
        (Returned r,
         Map_set (JSON_stringify args) r (Map_delete (JSON_stringify args) cache),
         w')
    | (Thrown e, w') => (Thrown e, Map_delete (JSON_stringify args) cache, w')
    end.
Proof.
  intros Hh. unfold memoizeWithMaxSize. cbv zeta. rewrite Hh.
  destruct (invoke fn args _) as [[r | e] w']; [| done].
  by rewrite Map_get_set.
Qed.

(** The call on a key that is not in the store. *)
Lemma memoizeWithMaxSize_absent (maxSize : Z) (cache : list (string * jsval))
    (args : list jsval) (w : W) :
  Map_has (JSON_stringify args) cache = false ->
  memoizeWithMaxSize fn fn_name maxSize cache args w
  = match invoke fn args (console_log (computing_line fn_name args) w) with
    | (Returned r, w') =>
        if Z.of_nat (S (Map_size cache)) >? maxSize then
          (Returned r, tail (cache ++ [(JSON_stringify args, r)]),
           console_log
             ("  [evicted] " +:+ hd (JSON_stringify args) (Map_keys cache)) w')
        else (Returned r, cache ++ [(JSON_stringify args, r)], w')
    | (Thrown e, w') => (Thrown e, cache, w')
    end.
Proof.
  intros Hh. unfold memoizeWithMaxSize. cbv zeta. rewrite Hh.
  destruct (invoke fn args _) as [[r | e] w']; [| done].
  apply Map_has_false in Hh. rewrite (Map_set_fresh _ _ _ Hh).
  unfold Map_size. rewrite length_app. simpl.
  replace (length cache + 1)%nat with (S (length cache)) by lia.
  destruct (Z.of_nat (S (length cache)) >? maxSize); [| done].
  destruct cache as [| [k0 v0] cache]; simpl.
  - by destruct (decide (JSON_stringify args = JSON_stringify args)).
  - by destruct (decide (k0 = k0)).
Qed.

(** One call keeps the store within the bound. *)
Lemma memoizeWithMaxSize_size_step (maxSize : Z) (cache : list (string * jsval))
    (args : list jsval) (w : W) :
  0 <= maxSize ->
  Z.of_nat (Map_size cache) <= maxSize ->
  Z.of_nat (Map_size (snd (fst (memoizeWithMaxSize fn fn_name maxSize cache args w))))
  <= maxSize.
Proof.
  intros Hn Hsz.
  destruct (Map_has (JSON_stringify args) cache) eqn:Hh.
  - rewrite (memoizeWithMaxSize_present _ _ _ _ Hh).
    apply Map_has_true in Hh.
    pose proof (Map_size_delete_present _ _ Hh) as Hd.
    destruct (invoke fn args _) as [[r | e] w']; simpl.
    + pose proof (Map_size_set_le (JSON_stringify args) r
                    (Map_delete (JSON_stringify args) cache)). lia.
    + lia.
  - rewrite (memoizeWithMaxSize_absent _ _ _ _ Hh).
    destruct (invoke fn args _) as [[r | e] w']; simpl; [| done].
    destruct (Z.gtb_spec (Z.of_nat (S (Map_size cache))) maxSize) as [Hgt | Hle];
      simpl.
    + unfold Map_size in *. destruct cache as [| kv cache]; simpl in *.
      * lia.
      * rewrite length_app. simpl. lia.
    + unfold Map_size in *. rewrite length_app. simpl. lia.
Qed.

(** For a wrapped function that does not call the wrapper and
    [maxSize >= 0]: the store, empty when the wrapper is created, holds at
    most [maxSize] entries after every sequence of calls, and a call whose
    insertion takes a store within the bound above [maxSize] removes, before
    it returns, the oldest entry.  (With a wrapped function that calls the
    wrapper the bound fails; see the module [NestedCalls].) *)
Lemma memoizeWithMaxSize_bound_without_nested_calls
    (maxSize : Z) (calls : list (list jsval)) (w : W) :
  0 <= maxSize ->
  Z.of_nat (Map_size (snd (fst (run (memoizeWithMaxSize fn fn_name maxSize)
                                    calls [] w))))
  <= maxSize
  /\ forall (cache : list (string * jsval)) (args : list jsval) (w0 w' : W)
        (r : jsval),
       Z.of_nat (Map_size cache) <= maxSize ->
       Map_has (JSON_stringify args) cache = false ->
       invoke fn args (console_log (computing_line fn_name args) w0)
       = (Returned r, w') ->
       maxSize < Z.of_nat (S (Map_size cache)) ->
       memoizeWithMaxSize fn fn_name maxSize cache args w0
       = (Returned r, tail (cache ++ [(JSON_stringify args, r)]),
          console_log
            ("  [evicted] " +:+ hd (JSON_stringify args) (Map_keys cache)) w')
       /\ Z.of_nat (Map_size (tail (cache ++ [(JSON_stringify args, r)])))
          <= maxSize.
Proof.
  intros Hn. split.
  - apply (run_preserves (memoizeWithMaxSize fn fn_name maxSize)
             (fun c => Z.of_nat (Map_size c) <= maxSize)).
    + intros c a w0 Hc. by apply memoizeWithMaxSize_size_step.
    + simpl. lia.
  - intros cache args w0 w' r Hsz Hh Hi Hover.
    rewrite (memoizeWithMaxSize_absent _ _ _ _ Hh), Hi.
    destruct (Z.gtb_spec (Z.of_nat (S (Map_size cache))) maxSize); [| lia].
    split; [done |].
    unfold Map_size in *. destruct cache as [| kv cache]; simpl in *.
    + lia.
    + rewrite length_app. simpl. lia.
Qed.


End MaxSizeFacts.

Example memoizeWithMaxSize_bound_on_the_demo :
  Z.of_nat (Map_size (snd (fst (run (memoizeWithMaxSize getUserById "getUserById" 3)
                                    [[JNum 1]; [JNum 2]; [JNum 3]; [JNum 4]; [JNum 2]]
                                    [] (world0 tt)))))
  <= 3.
Proof.
  destruct (memoizeWithMaxSize_bound_without_nested_calls getUserById "getUserById" 3
              [[JNum 1]; [JNum 2]; [JNum 3]; [JNum 4]; [JNum 2]] (world0 tt))
    as [Hsize _]; [lia | exact Hsize].
Qed.

(** C1 at [memoizeWithMaxSize(getUserById, 3)], called twice with the
    argument 1: the second call takes the cache-hit path, and yet the
    wrapped function has been invoked twice. *)
Theorem C1_maxSize_hit_runs_the_computation_again :
  invoked (snd (run (memoizeWithMaxSize getUserById "getUserById" 3)
                    [[JNum 1]; [JNum 1]] [] (world0 tt)))
  = [[JNum 1]; [JNum 1]]
  /\ console (snd (run (memoizeWithMaxSize getUserById "getUserById" 3)
                       [[JNum 1]; [JNum 1]] [] (world0 tt)))
     = ["  [computing] getUserById(1)"; "  [cache hit] [1]"].
Proof. split; reflexivity. Qed.

(** C4 at [memoizeWithMaxSize(rejectNull, 3)]: the call with [undefined]
    stores 1 under the key [[null]]; the call with [null] finds that key,
    deletes it, and only then runs the computation, which throws: the
    exception reaches the caller and the entry stored before is gone. *)
Theorem C4_maxSize_throw_on_hit_drops_the_entry :
  snd (fst (run (memoizeWithMaxSize rejectNull "rejectNull" 3)
                [[JUndefined]] [] (world0 0)))
  = [("[null]", JNum 1)]
  /\ fst (fst (run (memoizeWithMaxSize rejectNull "rejectNull" 3)
                   [[JUndefined]; [JNull]] [] (world0 0)))
     = [Returned (JNum 1); Thrown (JStr "null input")]
  /\ snd (fst (run (memoizeWithMaxSize rejectNull "rejectNull" 3)
                   [[JUndefined]; [JNull]] [] (world0 0)))
     = [].
Proof. repeat split; reflexivity. Qed.

(** ** Recency order of [memoizeWithMaxSize] *)

Lemma run_cons {Ext Args C : Type}
    (call : C -> Args -> World Ext Args -> outcome * C * World Ext Args)
    (a : Args) (l : list Args) (c : C) (w : World Ext Args) :
  run call (a :: l) c w
  = let '(o, c1, w1) := call c a w in
    let '(os, c2, w2) := run call l c1 w1 in
    (o :: os, c2, w2).
Proof. reflexivity. Qed.

Lemma Map_keys_tail {K V : Type} (m : list (K * V)) :
  Map_keys (tail m) = tail (Map_keys m).
Proof. by destruct m. Qed.

Lemma Map_keys_length {K V : Type} (m : list (K * V)) :
  length (Map_keys m) = length m.
Proof. unfold Map_keys. apply length_map. Qed.

(** Deleting a key and setting it again moves it to the end. *)
Lemma Map_set_delete_keys {V : Type} (k : string) (v : V) (m : list (string * V)) :
  NoDup (Map_keys m) ->
  Map_keys (Map_set k v (Map_delete k m))
  = filter (fun k' => k' <> k) (Map_keys m) ++ [k].
Proof.
  intros Hnd.
  assert (k ∉ Map_keys (Map_delete k m)) as Hfresh.
  { rewrite Map_keys_delete by done. rewrite list_elem_of_filter. tauto. }
  rewrite (Map_set_fresh _ _ _ Hfresh), Map_keys_app.
  by rewrite Map_keys_delete.
Qed.

Section MaxSizeOrder.
Context {Ext : Type}.
Variable fn : list jsval -> Ext -> outcome * Ext.
Variable fn_name : string.
Local Abbreviation W := (World Ext (list jsval)).

(** Calls on new keys that return and fit into the store append their
    keys in call order; nothing is evicted. *)
Lemma run_fills (maxSize : Z) (calls : list (list jsval)) :
  forall (cache c' : list (string * jsval)) (w w' : W) (outs : list outcome),
    NoDup (Map_keys cache ++ map JSON_stringify calls) ->
    Z.of_nat (length cache + length calls) <= maxSize ->
    run (memoizeWithMaxSize fn fn_name maxSize) calls cache w = (outs, c', w') ->
    Forall is_Returned outs ->
    Map_keys c' = Map_keys cache ++ map JSON_stringify calls
    /\ console w' = console w ++ map (computing_line fn_name) calls.
Proof.
  induction calls as [| a calls IH]; intros cache c' w w' outs Hnd Hsz Hrun Hret.
  - injection Hrun as <- <- <-. simpl. by rewrite !app_nil_r.
  - rewrite run_cons in Hrun. simpl in Hnd.
    assert (JSON_stringify a ∉ Map_keys cache) as Hfresh.
    { apply NoDup_app in Hnd as (_ & Hdisj & _). intros Hin.
      apply (Hdisj _ Hin). left. }
    rewrite (memoizeWithMaxSize_absent fn fn_name maxSize cache a w) in Hrun
      by (by apply Map_has_false).
    destruct (invoke fn a _) as [[r | e] w1] eqn:Hi.
    + apply invoke_invoked in Hi as (_ & Hcon & _). simpl in Hcon.
      destruct (Z.gtb_spec (Z.of_nat (S (Map_size cache))) maxSize) as [Hgt | _].
      { unfold Map_size in Hgt. simpl in Hsz. lia. }
      destruct (run _ calls _ w1) as [[os c2] w2] eqn:Hrest.
      injection Hrun as <- <- <-.
      apply Forall_cons in Hret as [_ Hret].
      apply IH in Hrest as [Hkeys Hcons]; [| | | done].
      * rewrite Hkeys, Hcons, Hcon, Map_keys_app. simpl.
        by rewrite <- !app_assoc.
      * rewrite Map_keys_app. simpl. by rewrite <- app_assoc.
      * rewrite length_app. simpl in *. lia.
    + destruct (run _ calls _ w1) as [[os c2] w2].
      injection Hrun as <- <- <-.
      apply Forall_cons in Hret as [[] _].
Qed.

(** C2 (amended): with [maxEntries = n], the calls of [pre] on [n]
    distinct keys followed by a call on one more key, all returning, leave
    in the store every key but the first, in call order, and write one
    eviction line, for the first key: exactly one entry was evicted, the
    least recently used.  And when [n >= 2], if a key of [pre] is called
    again (a hit whose recomputation returns) before the call on the new
    key, it moves to the most recent end: it is still in the store after
    the insertion, and the key evicted is the oldest of the others. *)
Theorem C2_eviction_of_the_least_recently_used
    (n : nat) (pre : list (list jsval)) (a_hit a_new : list jsval) (w : W) :
  length pre = n ->
  NoDup (map JSON_stringify (pre ++ [a_new])) ->
  (forall outs c' w',
     run (memoizeWithMaxSize fn fn_name (Z.of_nat n)) (pre ++ [a_new]) [] w
     = (outs, c', w') ->
     Forall is_Returned outs ->
     Map_keys c' = tail (map JSON_stringify (pre ++ [a_new]))
     /\ console w'
        = console w ++ map (computing_line fn_name) (pre ++ [a_new])
            ++ ["  [evicted] " +:+ JSON_stringify (hd a_new pre)])
  /\ ((2 <= n)%nat ->
      JSON_stringify a_hit ∈ map JSON_stringify pre ->
      forall outs c' w',
        run (memoizeWithMaxSize fn fn_name (Z.of_nat n))
            (pre ++ [a_hit; a_new]) [] w
        = (outs, c', w') ->
        Forall is_Returned outs ->
        Map_has (JSON_stringify a_hit) c' = true
        /\ Map_keys c'
           = tail (filter (fun k => k <> JSON_stringify a_hit)
                          (map JSON_stringify pre))
               ++ [JSON_stringify a_hit; JSON_stringify a_new]).
Proof.
  intros Hlen Hnd. rewrite map_app in Hnd. simpl in Hnd.
  pose proof Hnd as Hnd'. apply NoDup_app in Hnd' as (Hndpre & Hdisj & _).
  assert (JSON_stringify a_new ∉ map JSON_stringify pre) as Hnew.
  { intros Hin. apply (Hdisj _ Hin). left. }
  split.
  - intros outs c' w' Hrun Hret. rewrite run_app in Hrun.
    destruct (run _ pre [] w) as [[os1 c1] w1] eqn:Hpre.
    rewrite run_cons in Hrun.
    destruct (memoizeWithMaxSize fn fn_name (Z.of_nat n) c1 a_new w1)
      as [[o2 c2] w2] eqn:Hstep2.
    simpl in Hrun. injection Hrun as <- <- <-.
    apply Forall_app in Hret as [Hret1 Hret].
    apply Forall_cons in Hret as [Ho2 _].
    destruct (run_fills (Z.of_nat n) pre [] c1 w w1 os1) as [Hk1 Hc1];
      simpl; [done | lia | done | done |]. simpl in Hk1.
    rewrite (memoizeWithMaxSize_absent fn fn_name (Z.of_nat n) c1 a_new w1)
      in Hstep2 by (apply Map_has_false; by rewrite Hk1).
    destruct (invoke fn a_new _) as [[r | e] w2'] eqn:Hi;
      [| injection Hstep2 as <- <- <-; destruct Ho2].
    apply invoke_invoked in Hi as (_ & Hcon & _). simpl in Hcon.
    assert (Map_size c1 = n) as Hsz
      by (unfold Map_size; by rewrite <- Map_keys_length, Hk1, length_map).
    rewrite Hsz in Hstep2.
    destruct (Z.gtb_spec (Z.of_nat (S n)) (Z.of_nat n)) as [_ | Hle]; [| lia].
    injection Hstep2 as <- <- <-.
    rewrite Map_keys_tail, Map_keys_app, Hk1, map_app. simpl.
    split; [done |]. rewrite Hcon, Hc1, map_app. simpl.
    rewrite <- !app_assoc. simpl. do 3 f_equal.
    by destruct pre.
  - intros Hn2 Hhit outs c' w' Hrun Hret. rewrite run_app in Hrun.
    destruct (run _ pre [] w) as [[os1 c1] w1] eqn:Hpre.
    rewrite !run_cons in Hrun.
    destruct (memoizeWithMaxSize fn fn_name (Z.of_nat n) c1 a_hit w1)
      as [[o2 c2] w2] eqn:Hstep2.
    simpl in Hrun.
    destruct (memoizeWithMaxSize fn fn_name (Z.of_nat n) c2 a_new w2)
      as [[o3 c3] w3] eqn:Hstep3.
    simpl in Hrun. injection Hrun as <- <- <-.
    apply Forall_app in Hret as [Hret1 Hret].
    apply Forall_cons in Hret as [Ho2 Hret].
    apply Forall_cons in Hret as [Ho3 _].
    destruct (run_fills (Z.of_nat n) pre [] c1 w w1 os1) as [Hk1 _];
      simpl; [done | lia | done | done |]. simpl in Hk1.
    assert (NoDup (Map_keys c1)) as Hnd1 by (by rewrite Hk1).
    assert (JSON_stringify a_hit ∈ Map_keys c1) as Hin1 by (by rewrite Hk1).
    (* the hit *)
    rewrite (memoizeWithMaxSize_present fn fn_name (Z.of_nat n) c1 a_hit w1)
      in Hstep2 by (by apply Map_has_true).
    destruct (invoke fn a_hit _) as [[r2 | e2] w2'];
      injection Hstep2 as <- <- <-; [| destruct Ho2].
    pose proof (Map_set_delete_keys (JSON_stringify a_hit) r2 c1 Hnd1) as Hk2.
    pose proof (Map_size_delete_present _ _ Hin1) as Hdel.
    assert (length (filter (fun k => k <> JSON_stringify a_hit) (Map_keys c1))
            = Map_size (Map_delete (JSON_stringify a_hit) c1)) as Hflen.
    { rewrite <- Map_keys_delete by done. apply Map_keys_length. }
    assert (Map_size c1 = n) as Hsz1
      by (unfold Map_size; by rewrite <- Map_keys_length, Hk1, length_map).
    (* the insertion *)
    assert (JSON_stringify a_new
              ∉ Map_keys (Map_set (JSON_stringify a_hit) r2
                            (Map_delete (JSON_stringify a_hit) c1))) as Hfresh.
    { rewrite Hk2, elem_of_app, list_elem_of_filter, list_elem_of_singleton, Hk1.
      intros [[_ Hin] | Heq]; [by apply Hnew | apply Hnew; by rewrite Heq]. }
    rewrite (memoizeWithMaxSize_absent fn fn_name (Z.of_nat n) _ a_new w2')
      in Hstep3 by (by apply Map_has_false).
    destruct (invoke fn a_new _) as [[r3 | e3] w3'];
      [| injection Hstep3 as <- <- <-; destruct Ho3].
    assert (Map_size (Map_set (JSON_stringify a_hit) r2
                        (Map_delete (JSON_stringify a_hit) c1)) = n) as Hsz2.
    { unfold Map_size. rewrite <- Map_keys_length, Hk2, length_app, Hflen.
      simpl. lia. }
    rewrite Hsz2 in Hstep3.
    destruct (Z.gtb_spec (Z.of_nat (S n)) (Z.of_nat n)) as [_ | Hle]; [| lia].
    injection Hstep3 as <- <- <-.
    assert (Map_keys (tail (Map_set (JSON_stringify a_hit) r2
                              (Map_delete (JSON_stringify a_hit) c1)
                            ++ [(JSON_stringify a_new, r3)]))
            = tail (filter (fun k => k <> JSON_stringify a_hit)
                           (map JSON_stringify pre))
                ++ [JSON_stringify a_hit; JSON_stringify a_new]) as Hk3.
    { rewrite Map_keys_tail, Map_keys_app, Hk2, <- Hk1. simpl.
      destruct (filter (fun k => k <> JSON_stringify a_hit) (Map_keys c1))
        as [| k0 f] eqn:Hf.
      - simpl in Hflen. lia.
      - simpl. by rewrite <- app_assoc. }
    split; [| done].
    apply Map_has_true. rewrite Hk3, elem_of_app. right. left.
Qed.
End MaxSizeOrder.

Lemma C2_witness :
  Map_keys (snd (fst (run (memoizeWithMaxSize getUserById "getUserById" 3)
                          [[JNum 1]; [JNum 2]; [JNum 3]; [JNum 4]]
                          [] (world0 tt))))
  = ["[2]"; "[3]"; "[4]"]
  /\ Map_keys (snd (fst (run (memoizeWithMaxSize getUserById "getUserById" 3)
                             [[JNum 1]; [JNum 2]; [JNum 3]; [JNum 1]; [JNum 4]]
                             [] (world0 tt))))
     = ["[3]"; "[1]"; "[4]"].
Proof.
  destruct (C2_eviction_of_the_least_recently_used getUserById "getUserById"
              3%nat [[JNum 1]; [JNum 2]; [JNum 3]] [JNum 1] [JNum 4] (world0 tt))
    as [H1 H2].
  - reflexivity.
  - apply (bool_decide_unpack _). vm_compute. reflexivity.
  - split.
    + edestruct H1 as [Hk _]; [reflexivity | repeat constructor |]. exact Hk.
    + edestruct H2 as [_ Hk];
        [lia | left | reflexivity | repeat constructor |]. exact Hk.
Defined.

(** C2, as stated, fails for [maxEntries = 1]: the key [[1]] is hit just
    before the call on the new key [[2]], and it is the entry that the
    insertion evicts. *)
Lemma C2_counterexample :
  console (snd (run (memoizeWithMaxSize getUserById "getUserById" 1)
                    [[JNum 1]; [JNum 1]; [JNum 2]] [] (world0 tt)))
  = ["  [computing] getUserById(1)"; "  [cache hit] [1]";
     "  [computing] getUserById(2)"; "  [evicted] [1]"]
  /\ Map_has "[1]"
       (snd (fst (run (memoizeWithMaxSize getUserById "getUserById" 1)
                      [[JNum 1]; [JNum 1]; [JNum 2]] [] (world0 tt))))
     = false
  /\ Map_keys (snd (fst (run (memoizeWithMaxSize getUserById "getUserById" 1)
                             [[JNum 1]; [JNum 1]; [JNum 2]] [] (world0 tt))))
     = ["[2]"].
Proof. repeat split; reflexivity. Qed.

(** ** [MemoizedFunction] *)

Section MemoizedFunctionFacts.
Context {Ext : Type}.
Variable fn : list jsval -> Ext -> outcome * Ext.
Variable fn_name : string.
Local Abbreviation W := (World Ext (list jsval)).

(** A call either answers from the cache, counting a hit and leaving the
    wrapped function alone, or counts a miss and runs it. *)
Lemma MemoizedFunction_call_counts (this this' : MemoizedFunction)
    (args : list jsval) (w w' : W) (o : outcome) :
  MemoizedFunction_call fn fn_name this args w = (o, this', w') ->
  (invoked w' = invoked w
   /\ hits this' = hits this + 1 /\ misses this' = misses this)
  \/ (invoked w' = invoked w ++ [args]
      /\ hits this' = hits this /\ misses this' = misses this + 1).
Proof.
  unfold MemoizedFunction_call. cbv zeta.
  destruct (Map_has (JSON_stringify args) (mf_cache this)).
  - intros [= _ <- <-]. left. done.
  - destruct (invoke fn args _) as [[r | e] w1] eqn:Hi;
      apply invoke_invoked in Hi as (Hinv & _ & _);
      intros [= _ <- <-]; right; done.
Qed.

(** A call whose computation throws leaves the cache as it was (the miss
    stays counted). *)
Lemma MemoizedFunction_call_thrown (this this' : MemoizedFunction)
    (args : list jsval) (w w' : W) (e : jsval) :
  MemoizedFunction_call fn fn_name this args w = (Thrown e, this', w') ->
  mf_cache this' = mf_cache this /\ invoked w' = invoked w ++ [args].
Proof.
  unfold MemoizedFunction_call. cbv zeta.
  destruct (Map_has (JSON_stringify args) (mf_cache this)); [intros [=] |].
  destruct (invoke fn args _) as [[r | e0] w1] eqn:Hi;
    apply invoke_invoked in Hi as (Hinv & _ & _);
    intros [= _ <- <-]. done.
Qed.

Lemma mf_step_counts (this : MemoizedFunction) (op : mf_op) (w : W) :
  let calls := if is_call op then 1 else 0 in
  let ran := Z.of_nat (length (invoked (snd (mf_step fn fn_name this op w))))
             - Z.of_nat (length (invoked w)) in
  hits (fst (mf_step fn fn_name this op w)) = hits this + (calls - ran)
  /\ misses (fst (mf_step fn fn_name this op w)) = misses this + ran.
Proof.
  destruct op as [args | |]; simpl.
  - destruct (MemoizedFunction_call fn fn_name this args w) as [[o this'] w']
      eqn:Hcall.
    destruct (MemoizedFunction_call_counts _ _ _ _ _ _ Hcall) as [(Hi & Hh & Hm) | (Hi & Hh & Hm)];
      simpl; rewrite Hi, Hh, Hm; [| rewrite length_app; simpl]; lia.
  - lia.
  - lia.
Qed.

Lemma mf_step_invoked_grows (this : MemoizedFunction) (op : mf_op) (w : W) :
  (length (invoked w) <= length (invoked (snd (mf_step fn fn_name this op w))))%nat.
Proof.
  destruct op as [args | |]; simpl; [| lia | lia].
  destruct (MemoizedFunction_call fn fn_name this args w) as [[o this'] w']
    eqn:Hcall.
  destruct (MemoizedFunction_call_counts _ _ _ _ _ _ Hcall) as [(Hi & _) | (Hi & _)];
    simpl; rewrite Hi; [| rewrite length_app]; lia.
Qed.



(** C5 (amended): [clear()] empties the store and leaves the [hits] and
    [misses] counters as they are (there is no eviction counter); and no
    operation, [clear()] included, ever decreases a counter. *)
Theorem C5_clear_empties_the_store_and_keeps_the_counters
    (this : MemoizedFunction) (w : W) :
  (mf_cache (fst (MemoizedFunction_clear this w)) = []
   /\ hits (fst (MemoizedFunction_clear this w)) = hits this
   /\ misses (fst (MemoizedFunction_clear this w)) = misses this)
  /\ forall op : mf_op,
       hits this <= hits (fst (mf_step fn fn_name this op w))
       /\ misses this <= misses (fst (mf_step fn fn_name this op w)).
Proof.
  split; [done |]. intros op.
  pose proof (mf_step_counts this op w) as [Hh Hm].
  pose proof (mf_step_invoked_grows this op w) as Hg.
  rewrite Hh, Hm. destruct op as [args | |]; simpl in *; try lia.
  destruct (MemoizedFunction_call fn fn_name this args w) as [[o this'] w']
    eqn:Hcall.
  destruct (MemoizedFunction_call_counts _ _ _ _ _ _ Hcall) as [(Hi & _) | (Hi & _)];
    simpl in *; rewrite Hi; [| rewrite length_app; simpl]; lia.
Qed.

End MemoizedFunctionFacts.

(** C5, as stated, fails: after a miss and a hit, [clear()] empties the
    store but the counters still read one hit and one miss. *)
Lemma C5_counterexample :
  MemoizedFunction_stats
    (fst (mf_run getUserById "getUserById"
            [OpCall [JNum 2; JNum 10]; OpCall [JNum 2; JNum 10]; OpClear]
            MemoizedFunction_new (world0 tt)))
  = {| stats_hits := 1; stats_misses := 1; stats_hitRate := "50.00%";
       stats_size := 0 |}.
Proof. reflexivity. Qed.


(** The run of the source: three calls of [(2, 10)] around one of
    [(2, 11)]. *)
Example MemoizedFunction_stats_of_the_demo :
  MemoizedFunction_stats
    (fst (mf_run getUserById "getUserById"
            [OpCall [JNum 2; JNum 10]; OpCall [JNum 2; JNum 10];
             OpCall [JNum 2; JNum 11]; OpCall [JNum 2; JNum 10]]
            MemoizedFunction_new (world0 tt)))
  = {| stats_hits := 2; stats_misses := 2; stats_hitRate := "50.00%";
       stats_size := 2 |}.
Proof. reflexivity. Qed.

Example MemoizedFunction_stats_when_new :
  MemoizedFunction_stats MemoizedFunction_new
  = {| stats_hits := 0; stats_misses := 0; stats_hitRate := "0%";
       stats_size := 0 |}.
Proof. reflexivity. Qed.

(** ** The [Map]-based [memoize] *)

Section MapMemoFacts.
Context {Ext K : Type} `{EqDecision K}.
Variable fn : K -> Ext -> outcome * Ext.

(** A first call that misses and returns runs [fn] once; the same call
    made again returns the same value and changes nothing. *)
Lemma MapMemo_memoize_twice (cache c1 : list (K * jsval)) (arg : K)
    (w w1 w2 : World Ext K) (v : jsval) :
  Map_has arg cache = false ->
  MapMemo.memoize fn cache arg w = (Returned v, c1, w1) ->
  invoked w1 = invoked w ++ [arg]
  /\ MapMemo.memoize fn c1 arg w2 = (Returned v, c1, w2).
Proof.
  intros Hh. unfold MapMemo.memoize at 1. rewrite Hh.
  destruct (invoke fn arg w) as [[r | e] w'] eqn:Hi; intros [= <- <- <-].
  apply invoke_invoked in Hi as (Hinv & _ & _). split; [done |].
  unfold MapMemo.memoize, Map_has. by rewrite Map_get_set.
Qed.

(** A call whose computation throws leaves the cache as it was. *)
Lemma MapMemo_memoize_thrown (cache c1 : list (K * jsval)) (arg : K)
    (w w1 : World Ext K) (e : jsval) :
  MapMemo.memoize fn cache arg w = (Thrown e, c1, w1) ->
  c1 = cache /\ invoked w1 = invoked w ++ [arg].
Proof.
  unfold MapMemo.memoize. destruct (Map_has arg cache); [intros [=] |].
  destruct (invoke fn arg w) as [[r | e0] w'] eqn:Hi; intros [= <- <- <-].
  by apply invoke_invoked in Hi as (Hinv & _ & _).
Qed.
End MapMemoFacts.

(** * Further properties of the wrappers and of the collection helpers *)

(** ** Keys of integer arguments *)

Lemma string_app_assoc (s1 s2 s3 : string) :
  (s1 +:+ s2) +:+ s3 = s1 +:+ (s2 +:+ s3).
Proof.
  induction s1 as [| c s1 IH]; [done |].
  change (String c ((s1 +:+ s2) +:+ s3) = String c (s1 +:+ (s2 +:+ s3))).
  by rewrite IH.
Qed.

Lemma string_app_length (s1 s2 : string) :
  String.length (s1 +:+ s2) = (String.length s1 + String.length s2)%nat.
Proof.
  induction s1 as [| c s1 IH]; [done |].
  change (S (String.length (s1 +:+ s2))
          = S (String.length s1 + String.length s2)).
  by rewrite IH.
Qed.

Lemma pretty_N_char_is_number (x : N) : is_number_char (pretty_N_char x) = true.
Proof. unfold pretty_N_char. by repeat case_match. Qed.

Lemma pretty_N_go_chars (x : N) :
  forall s, all_chars is_number_char s = true ->
            all_chars is_number_char (pretty_N_go x s) = true.
Proof.
  induction (N.lt_wf_0 x) as [x _ IH]; intros s Hs.
  assert (x = 0 \/ 0 < x)%N as [-> | Hpos] by lia.
  - by rewrite pretty_N_go_0.
  - rewrite pretty_N_go_step by done. apply IH.
    + by apply N.div_lt.
    + simpl. by rewrite pretty_N_char_is_number, Hs.
Qed.

Lemma pretty_N_go_length (x : N) :
  forall s, (String.length s <= String.length (pretty_N_go x s))%nat.
Proof.
  induction (N.lt_wf_0 x) as [x _ IH]; intros s.
  assert (x = 0 \/ 0 < x)%N as [-> | Hpos] by lia.
  - by rewrite pretty_N_go_0.
  - rewrite pretty_N_go_step by done.
    etrans; [| apply IH; by apply N.div_lt]. simpl. lia.
Qed.

Lemma pretty_N_chars (x : N) : all_chars is_number_char (pretty x) = true.
Proof.
  unfold pretty, pretty_N. case_decide; [done |]. by apply pretty_N_go_chars.
Qed.

Lemma pretty_N_nonempty (x : N) : pretty x <> EmptyString.
Proof.
  unfold pretty, pretty_N. case_decide; [done |].
  rewrite pretty_N_go_step by lia. intros Heq.
  pose proof (pretty_N_go_length (x `div` 10)
                (String (pretty_N_char (x `mod` 10)) EmptyString)) as Hlen.
  rewrite Heq in Hlen. simpl in Hlen. lia.
Qed.

Lemma pretty_Z_chars (z : Z) : all_chars is_number_char (pretty z) = true.
Proof.
  destruct z as [| p | p]; unfold pretty, pretty_Z; [done | ..].
  - apply (pretty_N_chars (N.pos p)).
  - simpl. apply (pretty_N_chars (N.pos p)).
Qed.

Lemma pretty_Z_nonempty (z : Z) : pretty z <> EmptyString.
Proof.
  destruct z as [| p | p]; unfold pretty, pretty_Z; [done | | done].
  apply (pretty_N_nonempty (N.pos p)).
Qed.

(** Two texts that end their runs of [P]-characters with a non-[P]
    character split in one way only. *)
Lemma split_at_first_other (P : ascii -> bool) (s1 s2 r1 r2 : string) (c d : ascii) :
  all_chars P s1 = true -> all_chars P s2 = true ->
  P c = false -> P d = false ->
  s1 +:+ String c r1 = s2 +:+ String d r2 ->
  s1 = s2 /\ c = d /\ r1 = r2.
Proof.
  revert s2. induction s1 as [| a s1 IH]; intros [| b s2]; simpl;
    intros H1 H2 Hc Hd Heq.
  - by injection Heq as -> ->.
  - injection Heq as -> _. apply andb_true_iff in H2 as [H2 _]. congruence.
  - injection Heq as -> _. apply andb_true_iff in H1 as [H1 _]. congruence.
  - injection Heq as -> Heq.
    apply andb_true_iff in H1 as [_ H1]. apply andb_true_iff in H2 as [_ H2].
    destruct (IH s2 H1 H2 Hc Hd Heq) as (-> & -> & ->). done.
Qed.

Lemma JSON_stringify_integers (l : list Z) :
  JSON_stringify (map JNum l) = "[" +:+ sep_join "," (map pretty l) +:+ "]".
Proof.
  unfold JSON_stringify. do 3 f_equal.
  induction l as [| z l IH]; simpl; [done | by rewrite IH].
Qed.

(** The text after the opening bracket, read from its first number. *)
Lemma integers_text_cons (z : Z) (l : list Z) :
  sep_join "," (map pretty (z :: l)) +:+ "]"
  = pretty z +:+ match l with
                 | [] => "]"
                 | _ => "," +:+ (sep_join "," (map pretty l) +:+ "]")
                 end.
Proof.
  destruct l as [| z' l]; [done |].
  change (sep_join "," (map pretty (z :: z' :: l)))
    with (pretty z +:+ "," +:+ sep_join "," (map pretty (z' :: l))).
  by rewrite !string_app_assoc.
Qed.

Lemma integers_text_inj (l1 l2 : list Z) :
  sep_join "," (map pretty l1) +:+ "]" = sep_join "," (map pretty l2) +:+ "]" ->
  l1 = l2.
Proof.
  revert l2. induction l1 as [| z1 l1 IH]; intros [| z2 l2] Heq; [done | ..].
  - rewrite integers_text_cons in Heq. exfalso.
    apply (pretty_Z_nonempty z2). symmetry.
    change (sep_join "," (map pretty []) +:+ "]")
      with (EmptyString +:+ String "]" EmptyString) in Heq.
    destruct l2;
      by apply (split_at_first_other is_number_char) in Heq as (? & _);
        [| done | apply pretty_Z_chars | done | done].
  - rewrite integers_text_cons in Heq. exfalso.
    apply (pretty_Z_nonempty z1).
    change (sep_join "," (map pretty []) +:+ "]")
      with (EmptyString +:+ String "]" EmptyString) in Heq.
    destruct l1;
      by apply (split_at_first_other is_number_char) in Heq as (? & _);
        [| apply pretty_Z_chars | done | done | done].
  - rewrite !integers_text_cons in Heq.
    destruct l1 as [| z1' l1], l2 as [| z2' l2];
      apply (split_at_first_other is_number_char) in Heq as (Hz & Hc & Hr);
      try apply pretty_Z_chars; try done; try discriminate Hc.
    + by apply (inj pretty) in Hz as ->.
    + apply (inj pretty) in Hz as ->. f_equal. by apply IH.
Qed.

(** ** More on [memoize] *)

Section MemoizeRuns.
Context {Ext : Type}.
Variable fn : list jsval -> Ext -> outcome * Ext.
Variable fn_name : string.
Local Abbreviation W := (World Ext (list jsval)).

Lemma memoize_run_invocations (calls : list (list jsval)) :
  forall (cache c' : gmap string jsval) (w w' : W) (outs : list outcome),
    run (memoize fn fn_name) calls cache w = (outs, c', w') ->
    Forall is_Returned outs ->
    invoked w' = invoked w ++ first_per_key (dom cache) calls
    /\ dom c' = list_to_set (map JSON_stringify calls) ∪ dom cache.
Proof.
  induction calls as [| a calls IH]; intros cache c' w w' outs Hrun Hret.
  - injection Hrun as <- <- <-. simpl. rewrite app_nil_r.
    split; [done | set_solver].
  - rewrite run_cons in Hrun. simpl first_per_key.
    destruct (cache !! JSON_stringify a) as [v |] eqn:Hc.
    + rewrite (memoize_hit fn fn_name _ _ _ _ Hc) in Hrun.
      destruct (run _ calls cache _) as [[os c2] w2] eqn:Hrest.
      injection Hrun as <- <- <-. apply Forall_cons in Hret as [_ Hret].
      apply IH in Hrest as [Hinv Hdom]; [| done].
      assert (JSON_stringify a ∈ dom cache) as Hin by (apply elem_of_dom; eauto).
      destruct (decide (JSON_stringify a ∈ dom cache)); [| done].
      split; [done |]. rewrite Hdom. simpl. set_solver.
    + unfold memoize in Hrun. rewrite Hc in Hrun.
      destruct (invoke fn a _) as [[r | e] w1] eqn:Hi.
      * apply invoke_invoked in Hi as (Hi & _ & _). simpl in Hi.
        destruct (run _ calls _ w1) as [[os c2] w2] eqn:Hrest.
        injection Hrun as <- <- <-. apply Forall_cons in Hret as [_ Hret].
        apply IH in Hrest as [Hinv Hdom]; [| done].
        rewrite dom_insert_L in Hinv, Hdom.
        assert (JSON_stringify a ∉ dom cache) as Hnin by (by apply not_elem_of_dom).
        destruct (decide (JSON_stringify a ∈ dom cache)); [done |].
        split.
        -- rewrite Hinv, Hi. by rewrite <- app_assoc.
        -- rewrite Hdom. simpl. set_solver.
      * destruct (run _ calls _ w1) as [[os c2] w2].
        injection Hrun as <- <- <-. apply Forall_cons in Hret as [[] _].
Qed.

(** X2: over any sequence of calls of a function wrapped by [memoize]
    that all return, the wrapped function runs exactly for the calls whose
    key is new -- once per distinct key, at the first call with that key, in
    call order -- and afterwards the cache holds exactly the keys it held
    before and the keys of the calls. *)
Theorem X2_memoize_runs_once_per_key
    (calls : list (list jsval)) (cache c' : gmap string jsval) (w w' : W)
    (outs : list outcome) :
  run (memoize fn fn_name) calls cache w = (outs, c', w') ->
  Forall is_Returned outs ->
  invoked w' = invoked w ++ first_per_key (dom cache) calls
  /\ dom c' = list_to_set (map JSON_stringify calls) ∪ dom cache.
Proof. apply memoize_run_invocations. Qed.


End MemoizeRuns.

Lemma X2_witness :
  invoked (snd (run (memoize getUserById "getUserById")
                    [[JNum 5]; [JNum 5]; [JNum 6]; [JNum 6]] ∅ (world0 tt)))
  = [] ++ first_per_key (dom (∅ : gmap string jsval))
            [[JNum 5]; [JNum 5]; [JNum 6]; [JNum 6]]
  /\ dom (snd (fst (run (memoize getUserById "getUserById")
                        [[JNum 5]; [JNum 5]; [JNum 6]; [JNum 6]] ∅ (world0 tt))))
     = list_to_set (map JSON_stringify [[JNum 5]; [JNum 5]; [JNum 6]; [JNum 6]])
         ∪ dom (∅ : gmap string jsval).
Proof.
  eapply (X2_memoize_runs_once_per_key getUserById "getUserById"
            [[JNum 5]; [JNum 5]; [JNum 6]; [JNum 6]] ∅ _ (world0 tt) _ _).
  - reflexivity.
  - repeat constructor.
Defined.



(** ** [memoizeWithCustomKey] *)

Section CustomKeyFacts.
Context {Ext : Type}.
Variable fn : list jsval -> Ext -> outcome * Ext.
Variable fn_name : string.
Variable keyGenerator : list jsval -> Ext -> outcome * Ext.
Local Abbreviation W := (World Ext (list jsval)).

(** No call stores under the name of an inherited property. *)
Lemma memoizeWithCustomKey_keeps_own_names (cache : gmap string jsval)
    (args : list jsval) (w : W) :
  (forall k, k ∈ Object_prototype_keys -> cache !! k = None) ->
  forall k, k ∈ Object_prototype_keys ->
            snd (fst (memoizeWithCustomKey fn fn_name keyGenerator cache args w))
              !! k = None.
Proof.
  intros Hinv k Hk. unfold memoizeWithCustomKey.
  destruct (keyGenerator args (env w)) as [[kv | e] e']; [| by apply Hinv].
  cbv zeta. destruct (cache !! ToString kv); [by apply Hinv |].
  case_bool_decide as Hproto; [by apply Hinv |].
  destruct (invoke fn args _) as [[r | e] w1]; simpl; [| by apply Hinv].
  rewrite lookup_insert_ne; [by apply Hinv | congruence].
Qed.

Lemma run_customKey_keeps_own_names (calls : list (list jsval)) :
  forall (cache : gmap string jsval) (w : W),
    (forall k, k ∈ Object_prototype_keys -> cache !! k = None) ->
    forall k, k ∈ Object_prototype_keys ->
              snd (fst (run_customKey fn fn_name keyGenerator calls cache w))
                !! k = None.
Proof.
  induction calls as [| a calls IH]; intros cache w Hinv k Hk; simpl.
  - by apply Hinv.
  - pose proof (memoizeWithCustomKey_keeps_own_names cache a w Hinv) as Hstep.
    destruct (memoizeWithCustomKey fn fn_name keyGenerator cache a w)
      as [[o c1] w1]. simpl in Hstep.
    pose proof (IH c1 w1 Hstep k Hk) as Hrest.
    by destruct (run_customKey fn fn_name keyGenerator calls c1 w1)
      as [[os c2] w2].
Qed.

(** X5: when the generated key is the name of a property that every
    object inherits ([toString], [constructor], ...), [key in cache] is true
    although nothing was stored: after any sequence of calls on a new
    wrapper, such a call is reported as a cache hit, completes with the
    inherited member, leaves the cache as it is, and the wrapped function
    is not run. *)
Theorem X5_custom_key_that_is_an_inherited_name_never_computes
    (calls : list (list jsval)) (w0 w : W) (args : list jsval)
    (k : jsval) (e' : Ext) :
  keyGenerator args (env w) = (Returned k, e') ->
  ToString k ∈ Object_prototype_keys ->
  let cache := snd (fst (run_customKey fn fn_name keyGenerator calls ∅ w0)) in
  memoizeWithCustomKey fn fn_name keyGenerator cache args w
  = (CInherited (ToString k), cache,
     console_log ("  [cache hit] key: " +:+ ToString k) (with_env e' w)).
Proof.
  intros Hk Hproto cache.
  assert (cache !! ToString k = None) as Hnone.
  { apply run_customKey_keeps_own_names; [| done].
    intros k0 _. apply lookup_empty. }
  unfold memoizeWithCustomKey. rewrite Hk. cbv zeta. rewrite Hnone.
  by rewrite bool_decide_eq_true_2.
Qed.

End CustomKeyFacts.


(** A key generator that returns its first argument: [(name) => name]. *)
Lemma X5_witness :
  memoizeWithCustomKey getUserById "getUserById"
    (fun args e => (Returned (hd JUndefined args), e))
    (snd (fst (run_customKey getUserById "getUserById"
                 (fun args e => (Returned (hd JUndefined args), e))
                 [[JStr "a"]; [JStr "b"]] ∅ (world0 tt))))
    [JStr "constructor"] (world0 tt)
  = (CInherited "constructor",
     snd (fst (run_customKey getUserById "getUserById"
                 (fun args e => (Returned (hd JUndefined args), e))
                 [[JStr "a"]; [JStr "b"]] ∅ (world0 tt))),
     console_log ("  [cache hit] key: " +:+ "constructor")
       (with_env tt (world0 tt))).
Proof.
  apply (X5_custom_key_that_is_an_inherited_name_never_computes getUserById
           "getUserById" (fun args e => (Returned (hd JUndefined args), e))
           [[JStr "a"]; [JStr "b"]] (world0 tt) (world0 tt)
           [JStr "constructor"] (JStr "constructor") tt).
  - reflexivity.
  - unfold Object_prototype_keys. simpl. left.
Defined.

(** ** More on [memoizeWithTTL] *)

Lemma Map_keys_set {K V : Type} `{EqDecision K} (k : K) (v : V) (m : list (K * V)) :
  Map_keys (Map_set k v m)
  = if Map_has k m then Map_keys m else Map_keys m ++ [k].
Proof.
  destruct (Map_has k m) eqn:Hh.
  - apply Map_keys_set_present. by apply Map_has_true.
  - apply Map_has_false in Hh. by rewrite Map_set_fresh, Map_keys_app.
Qed.

Section TTLGrowth.
Context {Ext : Type}.
Variable fn : list jsval -> Ext -> outcome * Ext.
Variable fn_name : string.
Variable Date_now : Ext -> Z.
Local Abbreviation W := (World Ext (list jsval)).

(** A call leaves the store as it is or sets the key of the call. *)
Lemma memoizeWithTTL_store_cases (ttlMs : Z) (cache : list (string * ttl_entry))
    (args : list jsval) (w : W) :
  snd (fst (memoizeWithTTL fn fn_name Date_now ttlMs cache args w)) = cache
  \/ exists entry,
       snd (fst (memoizeWithTTL fn fn_name Date_now ttlMs cache args w))
       = Map_set (JSON_stringify args) entry cache.
Proof.
  unfold memoizeWithTTL. cbv zeta.
  destruct (Map_get (JSON_stringify args) cache) as [c |];
    [destruct (Date_now (env w) - timestamp c <? ttlMs); [by left |] |];
    (destruct (invoke fn args _) as [[r | e] w1]; simpl; [right; eauto | by left]).
Qed.

Lemma memoizeWithTTL_keys_step (ttlMs : Z) (cache : list (string * ttl_entry))
    (args : list jsval) (w : W) :
  Map_keys cache
    `prefix_of` Map_keys (snd (fst (memoizeWithTTL fn fn_name Date_now ttlMs
                                      cache args w))).
Proof.
  destruct (memoizeWithTTL_store_cases ttlMs cache args w) as [-> | [entry ->]];
    [done |].
  rewrite Map_keys_set. destruct (Map_has _ cache); [done |].
  by apply prefix_app_r.
Qed.

(** X7: [memoizeWithTTL] never removes an entry.  After any sequence of
    calls the keys that were in the store are still there, in the same order
    and before the keys added since (so the store only grows), and a call
    does not touch the entry of any key other than its own. *)
Theorem X7_ttl_store_only_grows
    (ttlMs : Z) (calls : list (list jsval)) (cache : list (string * ttl_entry))
    (w : W) :
  Map_keys cache
    `prefix_of` Map_keys (snd (fst (run (memoizeWithTTL fn fn_name Date_now ttlMs)
                                        calls cache w)))
  /\ forall (args : list jsval) (k : string),
       k <> JSON_stringify args ->
       Map_get k (snd (fst (memoizeWithTTL fn fn_name Date_now ttlMs
                              cache args w)))
       = Map_get k cache.
Proof.
  split.
  - apply (run_preserves (memoizeWithTTL fn fn_name Date_now ttlMs)
             (fun c => Map_keys cache `prefix_of` Map_keys c)); [| done].
    intros c a w0 Hc. etrans; [exact Hc |]. apply memoizeWithTTL_keys_step.
  - intros args k Hne.
    destruct (memoizeWithTTL_store_cases ttlMs cache args w) as [-> | [entry ->]];
      [done |].
    apply Map_get_set_ne. congruence.
Qed.

(** X8: what [memoizeWithTTL] stores for a new key it serves back for
    the time to live.  After a call on a key that was not in the store
    returned [r], leaving the clock at [t'], the same call made at a time [t]
    with [t - t' < ttl] returns [r] without running the computation and
    changes nothing; made at a time with [t - t' >= ttl] it runs the
    computation again. *)
Theorem X8_ttl_serves_what_it_stored_until_expiry
    (ttlMs : Z) (cache c' : list (string * ttl_entry)) (args : list jsval)
    (w w' w2 : W) (r : jsval) :
  Map_get (JSON_stringify args) cache = None ->
  memoizeWithTTL fn fn_name Date_now ttlMs cache args w = (Returned r, c', w') ->
  (Date_now (env w2) - Date_now (env w') < ttlMs ->
   memoizeWithTTL fn fn_name Date_now ttlMs c' args w2
   = (Returned r, c',
      console_log ("  [cache hit] " +:+ JSON_stringify args) w2))
  /\ (ttlMs <= Date_now (env w2) - Date_now (env w') ->
      invoked (snd (memoizeWithTTL fn fn_name Date_now ttlMs c' args w2))
      = invoked w2 ++ [args]).
Proof.
  intros Hnone Hcall.
  apply memoizeWithTTL_recompute in Hcall as (_ & _ & ->); [| by rewrite Hnone].
  split.
  - intros Hlt. unfold memoizeWithTTL. cbv zeta. rewrite Map_get_set. simpl.
    destruct (Z.ltb_spec (Date_now (env w2) - Date_now (env w')) ttlMs);
      [done | lia].
  - intros Hge.
    destruct (memoizeWithTTL fn fn_name Date_now ttlMs _ args w2)
      as [[o c2] w3] eqn:Hcall2. simpl.
    apply memoizeWithTTL_recompute in Hcall2 as (Hinv & _); [done |].
    by rewrite Map_get_set.
Qed.

End TTLGrowth.

Lemma X7_witness :
  Map_get "[null]"
    (snd (fst (memoizeWithTTL rejectNull "rejectNull" id 1000 ttl_cache_null
                 [JNum 3] (at_time 5000 (world0 0)))))
  = Map_get "[null]" ttl_cache_null.
Proof.
  destruct (X7_ttl_store_only_grows rejectNull "rejectNull" id 1000 []
              ttl_cache_null (at_time 5000 (world0 0))) as [_ Hframe].
  apply Hframe. discriminate.
Defined.

Lemma X8_witness :
  memoizeWithTTL expensiveAPI "expensiveAPI" id 1000 ttl_cache_a [JStr "a"]
    (at_time 999 (world0 0))
  = (Returned (JStr ("Result for " +:+ dquote +:+ "a" +:+ dquote)), ttl_cache_a,
     console_log ("  [cache hit] " +:+ JSON_stringify [JStr "a"])
       (at_time 999 (world0 0))).
Proof.
  destruct (X8_ttl_serves_what_it_stored_until_expiry expensiveAPI "expensiveAPI"
              id 1000 [] ttl_cache_a [JStr "a"] (world0 0)
              {| env := 0; invoked := [[JStr "a"]];
                 console := ["  [computing] expensiveAPI(a)"] |}
              (at_time 999 (world0 0))
              (JStr ("Result for " +:+ dquote +:+ "a" +:+ dquote)))
    as [Hhit _]; [reflexivity | reflexivity |].
  apply Hhit. simpl. lia.
Defined.


(** ** More on [memoizeWithMaxSize] *)

Section MaxSizeDirect.
Context {Ext : Type}.
Variable fn : list jsval -> Ext -> outcome * Ext.
Variable fn_name : string.
Local Abbreviation W := (World Ext (list jsval)).


End MaxSizeDirect.

(** ** More on [MemoizedFunction] *)

Section MemoizedFunctionMore.
Context {Ext : Type}.
Variable fn : list jsval -> Ext -> outcome * Ext.
Variable fn_name : string.
Local Abbreviation W := (World Ext (list jsval)).

Lemma mf_step_size_bound (this : MemoizedFunction) (op : mf_op) (w : W) :
  0 <= misses this /\ Z.of_nat (Map_size (mf_cache this)) <= misses this ->
  0 <= misses (fst (mf_step fn fn_name this op w))
  /\ Z.of_nat (Map_size (mf_cache (fst (mf_step fn fn_name this op w))))
     <= misses (fst (mf_step fn fn_name this op w)).
Proof.
  intros [Hm Hs]. destruct op as [args | |]; simpl; [| done | simpl; lia].
  unfold MemoizedFunction_call. cbv zeta.
  destruct (Map_has (JSON_stringify args) (mf_cache this)); [done |].
  destruct (invoke fn args _) as [[r | e] w1]; simpl; [| lia].
  pose proof (Map_size_set_le (JSON_stringify args) r (mf_cache this)). lia.
Qed.

(** X11: the [size] that [stats()] reports never exceeds [misses]:
    after any sequence of calls, [stats()] and [clear()] on a new
    [MemoizedFunction] every stored entry was paid for by a counted miss. *)
Theorem X11_stats_size_is_at_most_misses (ops : list mf_op) (w : W) :
  Z.of_nat (stats_size (MemoizedFunction_stats
                          (fst (mf_run fn fn_name ops MemoizedFunction_new w))))
  <= stats_misses (MemoizedFunction_stats
                     (fst (mf_run fn fn_name ops MemoizedFunction_new w))).
Proof.
  simpl.
  cut (forall this w0,
         0 <= misses this /\ Z.of_nat (Map_size (mf_cache this)) <= misses this ->
         0 <= misses (fst (mf_run fn fn_name ops this w0))
         /\ Z.of_nat (Map_size (mf_cache (fst (mf_run fn fn_name ops this w0))))
            <= misses (fst (mf_run fn fn_name ops this w0))).
  { intros Hcut. apply Hcut. simpl. lia. }
  induction ops as [| op ops IH]; intros this w0 Hinv; [done |].
  simpl. pose proof (mf_step_size_bound this op w0 Hinv) as Hstep.
  destruct (mf_step fn fn_name this op w0) as [this1 w1]. by apply IH.
Qed.

(** The counters do not influence what a call does. *)
Lemma MemoizedFunction_call_same_cache (this1 this2 : MemoizedFunction)
    (args : list jsval) (w : W) :
  mf_cache this1 = mf_cache this2 ->
  let r1 := MemoizedFunction_call fn fn_name this1 args w in
  let r2 := MemoizedFunction_call fn fn_name this2 args w in
  fst (fst r1) = fst (fst r2) /\ snd r1 = snd r2
  /\ mf_cache (snd (fst r1)) = mf_cache (snd (fst r2))
  /\ hits (snd (fst r1)) - hits this1 = hits (snd (fst r2)) - hits this2
  /\ misses (snd (fst r1)) - misses this1 = misses (snd (fst r2)) - misses this2.
Proof.
  intros Hc. unfold MemoizedFunction_call. cbv zeta. rewrite Hc.
  destruct (Map_has (JSON_stringify args) (mf_cache this2)); simpl.
  - repeat split; lia.
  - destruct (invoke fn args _) as [[r | e] w1]; simpl; repeat split; lia.
Qed.

Lemma mf_run_same_cache (ops : list mf_op) :
  forall (this1 this2 : MemoizedFunction) (w : W),
    mf_cache this1 = mf_cache this2 ->
    snd (mf_run fn fn_name ops this1 w) = snd (mf_run fn fn_name ops this2 w)
    /\ mf_cache (fst (mf_run fn fn_name ops this1 w))
       = mf_cache (fst (mf_run fn fn_name ops this2 w))
    /\ hits (fst (mf_run fn fn_name ops this1 w)) - hits this1
       = hits (fst (mf_run fn fn_name ops this2 w)) - hits this2
    /\ misses (fst (mf_run fn fn_name ops this1 w)) - misses this1
       = misses (fst (mf_run fn fn_name ops this2 w)) - misses this2.
Proof.
  induction ops as [| op ops IH]; intros this1 this2 w Hc.
  - simpl. repeat split; [done | lia | lia].
  - simpl.
    assert (snd (mf_step fn fn_name this1 op w) = snd (mf_step fn fn_name this2 op w)
            /\ mf_cache (fst (mf_step fn fn_name this1 op w))
               = mf_cache (fst (mf_step fn fn_name this2 op w))
            /\ hits (fst (mf_step fn fn_name this1 op w)) - hits this1
               = hits (fst (mf_step fn fn_name this2 op w)) - hits this2
            /\ misses (fst (mf_step fn fn_name this1 op w)) - misses this1
               = misses (fst (mf_step fn fn_name this2 op w)) - misses this2)
      as (Hw & Hc1 & Hh & Hm).
    { destruct op as [args | |]; simpl.
      - pose proof (MemoizedFunction_call_same_cache this1 this2 args w Hc)
          as (_ & H2 & H3 & H4 & H5). cbv zeta in *.
        destruct (MemoizedFunction_call fn fn_name this1 args w) as [[o1 t1] w1].
        by destruct (MemoizedFunction_call fn fn_name this2 args w) as [[o2 t2] w2].
      - repeat split; [done | lia | lia].
      - repeat split; lia. }
    destruct (mf_step fn fn_name this1 op w) as [t1 w1].
    destruct (mf_step fn fn_name this2 op w) as [t2 w2].
    simpl in *. subst w2.
    destruct (IH t1 t2 w1 Hc1) as (IHw & IHc & IHh & IHm).
    repeat split; [done | done | lia | lia].
Qed.

(** X12: after [clear()] a [MemoizedFunction] does what a new one does:
    over any sequence of operations the same computations are run and the
    same lines are logged, the store is the same, and the counters advance
    by the same amounts -- they only continue from where they were. *)
Theorem X12_cleared_behaves_as_new
    (this : MemoizedFunction) (w w2 : W) (ops : list mf_op) :
  let cleared := fst (MemoizedFunction_clear this w) in
  snd (mf_run fn fn_name ops cleared w2)
  = snd (mf_run fn fn_name ops MemoizedFunction_new w2)
  /\ mf_cache (fst (mf_run fn fn_name ops cleared w2))
     = mf_cache (fst (mf_run fn fn_name ops MemoizedFunction_new w2))
  /\ hits (fst (mf_run fn fn_name ops cleared w2))
     = hits this + hits (fst (mf_run fn fn_name ops MemoizedFunction_new w2))
  /\ misses (fst (mf_run fn fn_name ops cleared w2))
     = misses this + misses (fst (mf_run fn fn_name ops MemoizedFunction_new w2)).
Proof.
  intros cleared.
  destruct (mf_run_same_cache ops cleared MemoizedFunction_new w2 eq_refl)
    as (Hw & Hc & Hh & Hm).
  simpl in Hh, Hm. repeat split; [done | done | lia | lia].
Qed.

(** X13: what a call of a [MemoizedFunction] returned is served from
    the cache afterwards: the same call made again, in any world, returns
    the same value, counts one more hit, leaves the store and the misses as
    they are and does not run the wrapped function. *)
Theorem X13_MemoizedFunction_serves_what_it_returned
    (this this1 : MemoizedFunction) (args : list jsval) (w w1 w2 : W) (v : jsval) :
  MemoizedFunction_call fn fn_name this args w = (Returned v, this1, w1) ->
  MemoizedFunction_call fn fn_name this1 args w2
  = (Returned v,
     {| mf_cache := mf_cache this1; hits := hits this1 + 1;
        misses := misses this1 |},
     console_log ("  [cache hit] " +:+ JSON_stringify args) w2).
Proof.
  intros Hcall.
  assert (Map_get (JSON_stringify args) (mf_cache this1) = Some v) as Hstored.
  { revert Hcall. unfold MemoizedFunction_call. cbv zeta. unfold Map_has.
    destruct (Map_get (JSON_stringify args) (mf_cache this)) as [v0 |] eqn:Hg.
    - intros [= <- <- _]. cbn [mf_cache]. by rewrite Hg.
    - destruct (invoke fn args _) as [[r | e] w3]; intros [= <- <- _].
      simpl. apply Map_get_set. }
  unfold MemoizedFunction_call. cbv zeta. unfold Map_has. simpl.
  by rewrite Hstored.
Qed.

End MemoizedFunctionMore.

Lemma X13_witness :
  MemoizedFunction_call getUserById "getUserById"
    {| mf_cache := [("[2,10]", JObj [("id", JNum 2); ("name", JStr "User2")])];
       hits := 0; misses := 1 |}
    [JNum 2; JNum 10] (world0 tt)
  = (Returned (JObj [("id", JNum 2); ("name", JStr "User2")]),
     {| mf_cache := [("[2,10]", JObj [("id", JNum 2); ("name", JStr "User2")])];
        hits := 0 + 1; misses := 1 |},
     console_log ("  [cache hit] " +:+ JSON_stringify [JNum 2; JNum 10])
       (world0 tt)).
Proof.
  eapply (X13_MemoizedFunction_serves_what_it_returned getUserById "getUserById"
            MemoizedFunction_new
            {| mf_cache := [("[2,10]", JObj [("id", JNum 2); ("name", JStr "User2")])];
               hits := 0; misses := 1 |}
            [JNum 2; JNum 10] (world0 tt) _ (world0 tt)
            (JObj [("id", JNum 2); ("name", JStr "User2")])).
  reflexivity.
Defined.


(** ** Sets *)

Section SetFacts.
Context {K : Type} `{EqDecision K}.
Implicit Types (x : K) (s l acc : list K).

Local Abbreviation add_all acc l :=
  (foldl (fun s x => Collections.Set_add x s) acc l).

Lemma Set_has_true x s : Collections.Set_has x s = true <-> x ∈ s.
Proof. unfold Collections.Set_has. apply bool_decide_eq_true. Qed.

Lemma Set_has_false x s : Collections.Set_has x s = false <-> x ∉ s.
Proof. unfold Collections.Set_has. apply bool_decide_eq_false. Qed.

Lemma Set_add_elem x y s : y ∈ Collections.Set_add x s <-> y = x \/ y ∈ s.
Proof.
  unfold Collections.Set_add. destruct (Collections.Set_has x s) eqn:Hh.
  - apply Set_has_true in Hh. split; [tauto | intros [-> | ?]; done].
  - rewrite elem_of_app, list_elem_of_singleton. tauto.
Qed.

Lemma Set_add_NoDup x s : NoDup s -> NoDup (Collections.Set_add x s).
Proof.
  intros Hnd. unfold Collections.Set_add.
  destruct (Collections.Set_has x s) eqn:Hh; [done |].
  apply Set_has_false in Hh. apply NoDup_app. split; [done |].
  split; [| apply NoDup_singleton].
  intros y Hy Hyx. apply list_elem_of_singleton in Hyx as ->. done.
Qed.

Lemma add_all_elem l : forall acc x, x ∈ add_all acc l <-> x ∈ acc \/ x ∈ l.
Proof.
  induction l as [| y l IH]; intros acc x; simpl.
  - rewrite elem_of_nil. tauto.
  - rewrite IH, Set_add_elem, elem_of_cons. tauto.
Qed.

Lemma add_all_NoDup l : forall acc, NoDup acc -> NoDup (add_all acc l).
Proof.
  induction l as [| y l IH]; intros acc Hnd; simpl; [done |].
  by apply IH, Set_add_NoDup.
Qed.

Lemma Set_add_in x s : x ∈ s -> Collections.Set_add x s = s.
Proof.
  intros Hin. unfold Collections.Set_add.
  by rewrite (proj2 (Set_has_true x s) Hin).
Qed.

Lemma Set_add_notin x s : x ∉ s -> Collections.Set_add x s = s ++ [x].
Proof.
  intros Hin. unfold Collections.Set_add.
  by rewrite (proj2 (Set_has_false x s) Hin).
Qed.

(** Adding to [acc] the values of [l] appends the new ones, in the order
    in which [new Set(l)] lists them. *)
Lemma add_all_shape l :
  forall acc,
    add_all acc l
    = acc ++ List.filter (fun x => negb (Collections.Set_has x acc))
                         (Collections.Set_from l).
Proof.
  unfold Collections.Set_from.
  induction l as [| y l IH] using rev_ind; intros acc.
  - simpl. by rewrite app_nil_r.
  - rewrite !foldl_app. simpl. rewrite IH.
    set (L := add_all [] l).
    set (F := List.filter _ L).
    assert (forall z, z ∈ F <-> (z ∉ acc) /\ z ∈ L) as HF.
    { intros z. unfold F. rewrite list_elem_of_In, List.filter_In.
      rewrite <- list_elem_of_In, negb_true_iff, Set_has_false. tauto. }
    destruct (decide (y ∈ L)) as [Hl | Hl], (decide (y ∈ acc)) as [Hacc | Hacc].
    + rewrite (Set_add_in y L Hl). fold F. apply Set_add_in.
      apply elem_of_app. by left.
    + rewrite (Set_add_in y L Hl). fold F. apply Set_add_in.
      apply elem_of_app. right. by apply HF.
    + rewrite (Set_add_notin y L Hl), List.filter_app. fold F. simpl.
      rewrite (proj2 (Set_has_true y acc) Hacc). simpl. rewrite app_nil_r.
      apply Set_add_in. apply elem_of_app. by left.
    + rewrite (Set_add_notin y L Hl), List.filter_app. fold F. simpl.
      rewrite (proj2 (Set_has_false y acc) Hacc). simpl. rewrite app_assoc.
      apply Set_add_notin. rewrite elem_of_app, HF. tauto.
Qed.

Lemma Set_from_elem l x : x ∈ Collections.Set_from l <-> x ∈ l.
Proof.
  unfold Collections.Set_from. rewrite add_all_elem, elem_of_nil. tauto.
Qed.

Lemma Set_from_NoDup l : NoDup (Collections.Set_from l).
Proof. apply add_all_NoDup, NoDup_nil_2. Qed.

Lemma add_all_fresh l : forall acc, NoDup (acc ++ l) -> add_all acc l = acc ++ l.
Proof.
  induction l as [| y l IH]; intros acc Hnd; simpl.
  - by rewrite app_nil_r.
  - unfold Collections.Set_add.
    rewrite (proj2 (Set_has_false y acc)).
    + rewrite IH by (by rewrite <- app_assoc). by rewrite <- app_assoc.
    + apply NoDup_app in Hnd as (_ & Hd & _). intros Hin.
      apply (Hd y Hin). left.
Qed.

Lemma Set_from_NoDup_id l : NoDup l -> Collections.Set_from l = l.
Proof. intros Hnd. unfold Collections.Set_from. by rewrite add_all_fresh. Qed.

Lemma filter_bool_NoDup (f : K -> bool) l : NoDup l -> NoDup (List.filter f l).
Proof.
  induction l as [| y l IH]; simpl; [done |].
  intros Hnd. apply NoDup_cons in Hnd as [Hy Hnd].
  destruct (f y); [| by apply IH].
  apply NoDup_cons. split; [| by apply IH].
  rewrite list_elem_of_In, List.filter_In, <- list_elem_of_In. tauto.
Qed.

Lemma filter_bool_elem (f : K -> bool) l x :
  x ∈ List.filter f l <-> x ∈ l /\ f x = true.
Proof. by rewrite list_elem_of_In, List.filter_In, <- list_elem_of_In. Qed.
End SetFacts.

Section SetOperations.
Context {K : Type} `{EqDecision K}.
Implicit Types (x : K) (A B arr : list K).

Lemma union_shape A B :
  NoDup A -> NoDup B ->
  Collections.union A B
  = A ++ List.filter (fun x => negb (Collections.Set_has x A)) B.
Proof.
  intros HA HB. unfold Collections.union, Collections.Set_from.
  rewrite foldl_app.
  change (foldl (fun s x => Collections.Set_add x s) [] A)
    with (Collections.Set_from A).
  rewrite (Set_from_NoDup_id A HA), add_all_shape.
  by rewrite (Set_from_NoDup_id B HB).
Qed.

Lemma filter_bool_partition (f : K -> bool) (l : list K) :
  (length (List.filter f l) + length (List.filter (fun x => negb (f x)) l))%nat
  = length l.
Proof.
  induction l as [| y l IH]; simpl; [done |].
  destruct (f y); simpl; lia.
Qed.

(** X16: for sets [A] and [B], [union(A, B)] is a set (no value
    twice) that holds exactly the values of [A] or [B], and it lists the
    values of [A] in their order followed by those of [B] that are not in
    [A]: spread, it is [[...A, ...difference(B, A)]]. *)
Theorem X16_union_lists_A_then_the_rest_of_B A B :
  NoDup A -> NoDup B ->
  NoDup (Collections.union A B)
  /\ (forall x, x ∈ Collections.union A B <-> x ∈ A \/ x ∈ B)
  /\ Collections.union A B = A ++ Collections.difference B A.
Proof.
  intros HA HB. split; [apply Set_from_NoDup |]. split.
  - intros x. unfold Collections.union. by rewrite Set_from_elem, elem_of_app.
  - rewrite (union_shape A B HA HB). unfold Collections.difference.
    by rewrite (Set_from_NoDup_id _ (filter_bool_NoDup _ B HB)).
Qed.

(** X17: for a set [A], [intersection(A, B)] holds exactly the values
    that are in both, in the order of [A], each once: it is [A] filtered by
    [B.has]. *)
Theorem X17_intersection_keeps_the_common_values_in_order A B :
  NoDup A ->
  Collections.intersection A B
  = List.filter (fun x => Collections.Set_has x B) A
  /\ NoDup (Collections.intersection A B)
  /\ forall x, x ∈ Collections.intersection A B <-> x ∈ A /\ x ∈ B.
Proof.
  intros HA. split; [| split].
  - unfold Collections.intersection.
    by rewrite (Set_from_NoDup_id _ (filter_bool_NoDup _ A HA)).
  - apply Set_from_NoDup.
  - intros x. unfold Collections.intersection.
    by rewrite Set_from_elem, filter_bool_elem, Set_has_true.
Qed.

(** X18: for a set [A], [difference(A, B)] holds exactly the values of
    [A] that are not in [B], and together with [intersection(A, B)] it
    splits [A]: no value is in both and their sizes add up to the size of
    [A]. *)
Theorem X18_difference_and_intersection_split_A A B :
  NoDup A ->
  (forall x, x ∈ Collections.difference A B <-> x ∈ A /\ (x ∉ B))
  /\ (forall x, x ∈ Collections.difference A B ->
                x ∈ Collections.intersection A B -> False)
  /\ (length (Collections.intersection A B)
      + length (Collections.difference A B))%nat = length A.
Proof.
  intros HA.
  assert (forall x, x ∈ Collections.difference A B <-> x ∈ A /\ (x ∉ B)) as Hd.
  { intros x. unfold Collections.difference.
    by rewrite Set_from_elem, filter_bool_elem, negb_true_iff, Set_has_false. }
  split; [exact Hd |]. split.
  - intros x Hx Hi. apply Hd in Hx as [_ Hx]. apply Hx.
    unfold Collections.intersection in Hi.
    rewrite Set_from_elem, filter_bool_elem, Set_has_true in Hi. tauto.
  - unfold Collections.intersection, Collections.difference.
    rewrite !Set_from_NoDup_id by (by apply filter_bool_NoDup).
    apply filter_bool_partition.
Qed.

(** X19: for sets [A] and [B] the sizes obey
    [|union| + |intersection| = |A| + |B|]. *)
Theorem X19_sizes_of_union_and_intersection A B :
  NoDup A -> NoDup B ->
  (length (Collections.union A B) + length (Collections.intersection A B))%nat
  = (length A + length B)%nat.
Proof.
  intros HA HB. rewrite (union_shape A B HA HB), length_app.
  assert (length (Collections.intersection A B)
          = length (List.filter (fun x => Collections.Set_has x A) B)) as ->.
  { apply Permutation_length, NoDup_Permutation.
    - apply Set_from_NoDup.
    - by apply filter_bool_NoDup.
    - intros x. unfold Collections.intersection.
      rewrite Set_from_elem, !filter_bool_elem, !Set_has_true. tauto. }
  pose proof (filter_bool_partition (fun x => Collections.Set_has x A) B). lia.
Qed.

(** X20: [new Set(arr)] removes the duplicates of [arr] and keeps the
    first occurrence of each value: it has no value twice, the same values
    as [arr], starts with the first item of [arr] followed by the set of the
    other items without that one, and building a set from it again changes
    nothing. *)
Theorem X20_new_Set_keeps_first_occurrences arr :
  NoDup (Collections.Set_from arr)
  /\ (forall x, x ∈ Collections.Set_from arr <-> x ∈ arr)
  /\ Collections.Set_from (Collections.Set_from arr) = Collections.Set_from arr
  /\ forall x,
       Collections.Set_from (x :: arr)
       = x :: List.filter (fun y => negb (Collections.Set_has y [x]))
                          (Collections.Set_from arr).
Proof.
  split; [apply Set_from_NoDup |]. split; [apply Set_from_elem |]. split.
  - apply Set_from_NoDup_id, Set_from_NoDup.
  - intros x. unfold Collections.Set_from at 1. simpl.
    rewrite (Set_add_notin x []) by apply not_elem_of_nil. simpl.
    apply (add_all_shape arr [x]).
Qed.
End SetOperations.

Lemma X16_witness :
  NoDup (Collections.union [1; 2; 3; 4] [3; 4; 5; 6])
  /\ (forall x, x ∈ Collections.union [1; 2; 3; 4] [3; 4; 5; 6]
                <-> x ∈ [1; 2; 3; 4] \/ x ∈ [3; 4; 5; 6])
  /\ Collections.union [1; 2; 3; 4] [3; 4; 5; 6]
     = [1; 2; 3; 4] ++ Collections.difference [3; 4; 5; 6] [1; 2; 3; 4].
Proof.
  apply (X16_union_lists_A_then_the_rest_of_B [1; 2; 3; 4] [3; 4; 5; 6]);
    apply (bool_decide_unpack _); vm_compute; reflexivity.
Defined.

Lemma X17_witness :
  Collections.intersection [1; 2; 3; 4] [3; 4; 5; 6]
  = List.filter (fun x => Collections.Set_has x [3; 4; 5; 6]) [1; 2; 3; 4]
  /\ NoDup (Collections.intersection [1; 2; 3; 4] [3; 4; 5; 6])
  /\ forall x, x ∈ Collections.intersection [1; 2; 3; 4] [3; 4; 5; 6]
               <-> x ∈ [1; 2; 3; 4] /\ x ∈ [3; 4; 5; 6].
Proof.
  apply (X17_intersection_keeps_the_common_values_in_order [1; 2; 3; 4] [3; 4; 5; 6]).
  apply (bool_decide_unpack _). vm_compute. reflexivity.
Defined.

Lemma X18_witness :
  (length (Collections.intersection [1; 2; 3; 4] [3; 4; 5; 6])
   + length (Collections.difference [1; 2; 3; 4] [3; 4; 5; 6])
   = length [1; 2; 3; 4])%nat.
Proof.
  destruct (X18_difference_and_intersection_split_A
              [1; 2; 3; 4]%nat [3; 4; 5; 6]%nat) as (_ & _ & Hsize).
  - apply (bool_decide_unpack _). vm_compute. reflexivity.
  - exact Hsize.
Defined.

Lemma X19_witness :
  (length (Collections.union [1; 2; 3; 4] [3; 4; 5; 6])
   + length (Collections.intersection [1; 2; 3; 4] [3; 4; 5; 6])
   = length [1; 2; 3; 4] + length [3; 4; 5; 6])%nat.
Proof.
  apply (X19_sizes_of_union_and_intersection [1; 2; 3; 4]%nat [3; 4; 5; 6]%nat);
    apply (bool_decide_unpack _); vm_compute; reflexivity.
Defined.

(** ** [countFrequencies] *)

Section Frequencies.
Context {K : Type} `{EqDecision K}.
Implicit Types (x item : K) (arr l : list K) (freq : list (K * Z)).

Local Abbreviation count_step :=
  (fun freq item =>
     Map_set item (Collections.or_zero (Map_get item freq) + 1) freq).

(** How often [x] occurs in [l]. *)
Local Abbreviation occurrences x l :=
  (Z.of_nat (length (filter (fun y => y = x) l))).

Lemma or_zero_Some (n : Z) : Collections.or_zero (Some n) = n.
Proof. simpl. destruct (Z.eqb_spec n 0); congruence. Qed.

Lemma filter_eq_absent x l : x ∉ l -> filter (fun y => y = x) l = [].
Proof.
  induction l as [| y l IH]; [done |].
  rewrite not_elem_of_cons. intros [Hne Hn].
  rewrite filter_cons_False by congruence. by apply IH.
Qed.

Lemma count_step_get freq item x :
  Map_get x (count_step freq item)
  = if decide (item = x)
    then Some (Collections.or_zero (Map_get x freq) + 1)
    else Map_get x freq.
Proof.
  destruct (decide (item = x)) as [-> | Hne].
  - apply Map_get_set.
  - by apply Map_get_set_ne.
Qed.

Lemma count_fold_get l :
  forall freq x,
    Map_get x (foldl count_step freq l)
    = if decide (x ∈ l)
      then Some (Collections.or_zero (Map_get x freq) + occurrences x l)
      else Map_get x freq.
Proof.
  induction l as [| item l IH]; intros freq x.
  - simpl. destruct (decide (x ∈ [])) as [Hin | _]; [| done].
    by apply elem_of_nil in Hin.
  - simpl foldl. rewrite IH, count_step_get.
    destruct (decide (item = x)) as [-> | Hne].
    + rewrite filter_cons_True by done. rewrite or_zero_Some.
      destruct (decide (x ∈ x :: l)) as [_ | Hn]; [| exfalso; apply Hn; left].
      destruct (decide (x ∈ l)) as [Hin | Hnin].
      * f_equal. simpl length. lia.
      * f_equal. rewrite (filter_eq_absent x l Hnin). simpl. lia.
    + rewrite filter_cons_False by done.
      destruct (decide (x ∈ l)) as [Hin | Hnin].
      * destruct (decide (x ∈ item :: l)) as [_ | Hn]; [done |].
        exfalso. apply Hn. by right.
      * destruct (decide (x ∈ item :: l)) as [Hin | _]; [| done].
        apply elem_of_cons in Hin as [-> | Hin]; done.
Qed.

Lemma count_step_keys freq item :
  Map_keys (count_step freq item) = Collections.Set_add item (Map_keys freq).
Proof.
  cbv beta. rewrite Map_keys_set. unfold Collections.Set_add.
  destruct (Map_has item freq) eqn:Hh.
  - apply Map_has_true in Hh. by rewrite (proj2 (Set_has_true _ _) Hh).
  - apply Map_has_false in Hh. by rewrite (proj2 (Set_has_false _ _) Hh).
Qed.

Lemma count_fold_keys l :
  forall freq,
    Map_keys (foldl count_step freq l)
    = foldl (fun s x => Collections.Set_add x s) (Map_keys freq) l.
Proof.
  induction l as [| item l IH]; intros freq; [done |].
  simpl. by rewrite IH, count_step_keys.
Qed.

(** The sum of the counts of a frequency map. *)
Local Abbreviation total freq := (foldr (fun kv acc => snd kv + acc) 0 freq).

Lemma total_set freq (k : K) (n : Z) :
  total (Map_set k n freq)
  = total freq - Collections.or_zero (Map_get k freq) + n.
Proof.
  induction freq as [| [k' n'] freq IH]; simpl; [lia |].
  destruct (decide (k' = k)) as [-> | Hne]; simpl.
  - destruct (Z.eqb_spec n' 0); lia.
  - rewrite IH. lia.
Qed.

Lemma count_fold_total l :
  forall freq, total (foldl count_step freq l) = total freq + Z.of_nat (length l).
Proof.
  induction l as [| item l IH]; intros freq; simpl foldl.
  - simpl. lia.
  - rewrite IH, total_set. simpl length. lia.
Qed.

(** X21: [countFrequencies(arr)] maps every item of [arr] to the number
    of its occurrences in [arr], and holds no other key. *)
Theorem X21_countFrequencies_counts_occurrences arr x :
  Map_get x (Collections.countFrequencies arr)
  = if decide (x ∈ arr)
    then Some (Z.of_nat (length (filter (fun y => y = x) arr)))
    else None.
Proof.
  unfold Collections.countFrequencies. rewrite count_fold_get. simpl.
  by destruct (decide (x ∈ arr)).
Qed.

(** X22: the keys of [countFrequencies(arr)] are the distinct items of
    [arr] in the order of their first occurrence -- the values of
    [new Set(arr)] -- and the counts add up to the length of [arr]. *)
Theorem X22_countFrequencies_keys_and_total arr :
  Map_keys (Collections.countFrequencies arr) = Collections.Set_from arr
  /\ foldr (fun kv acc => snd kv + acc) 0 (Collections.countFrequencies arr)
     = Z.of_nat (length arr).
Proof.
  unfold Collections.countFrequencies. split.
  - by rewrite count_fold_keys.
  - rewrite count_fold_total. simpl. lia.
Qed.
End Frequencies.

(** ** [JSClock] *)

Lemma JSClock_read_back_all :
  forallb (fun h =>
    forallb (fun m =>
      forallb (fun s => bool_decide (read_clock (JSClock h m s) = Some (h, m, s)))
              (seqZ 0 60))
            (seqZ 0 60))
          (seqZ 0 24)
  = true.
Proof. vm_compute. reflexivity. Qed.

Lemma JSClock_read_back (hour minute second : Z) :
  0 <= hour < 24 -> 0 <= minute < 60 -> 0 <= second < 60 ->
  read_clock (JSClock hour minute second) = Some (hour, minute, second).
Proof.
  intros Hh Hm Hs.
  pose proof JSClock_read_back_all as Hall.
  rewrite forallb_forall in Hall.
  specialize (Hall hour). rewrite forallb_forall in Hall.
  specialize (Hall ltac:(apply list_elem_of_In, elem_of_seqZ; lia) minute).
  rewrite forallb_forall in Hall.
  specialize (Hall ltac:(apply list_elem_of_In, elem_of_seqZ; lia) second
                   ltac:(apply list_elem_of_In, elem_of_seqZ; lia)).
  by apply bool_decide_eq_true in Hall.
Qed.

(** X23: [JSClock] writes a time of day so that it can be read back:
    for hours 0..23 and minutes and seconds 0..59 the text determines the
    three numbers ([read_clock] recovers them), so two different times never
    give the same text -- midnight is [12:..:.. A.M.] and noon
    [12:..:.. P.M.]. *)
Theorem X23_JSClock_text_determines_the_time
    (hour minute second hour' minute' second' : Z) :
  0 <= hour < 24 -> 0 <= minute < 60 -> 0 <= second < 60 ->
  0 <= hour' < 24 -> 0 <= minute' < 60 -> 0 <= second' < 60 ->
  read_clock (JSClock hour minute second) = Some (hour, minute, second)
  /\ (JSClock hour minute second = JSClock hour' minute' second' ->
      hour = hour' /\ minute = minute' /\ second = second').
Proof.
  intros Hh Hm Hs Hh' Hm' Hs'. split; [by apply JSClock_read_back |].
  intros Heq.
  pose proof (JSClock_read_back hour minute second Hh Hm Hs) as H1.
  pose proof (JSClock_read_back hour' minute' second' Hh' Hm' Hs') as H2.
  rewrite Heq, H2 in H1. by injection H1 as -> -> ->.
Qed.

Lemma X23_witness :
  read_clock (JSClock 0 5 9) = Some (0, 5, 9)
  /\ (JSClock 0 5 9 = JSClock 0 5 9 -> 0 = 0 /\ 5 = 5 /\ 9 = 9).
Proof.
  apply (X23_JSClock_text_determines_the_time 0 5 9 0 5 9); lia.
Defined.

Example JSClock_midnight_and_noon :
  JSClock 0 5 9 = "12:05:09 A.M." /\ JSClock 12 0 0 = "12:00:00 P.M."
  /\ JSClock 23 59 59 = "11:59:59 P.M.".
Proof. repeat split; reflexivity. Qed.

(** * Wrapped functions that call the wrapper *)

(** ** [memoizeWithMaxSize] *)

(** With a wrapped function that does not call the wrapper,
    [NestedCalls.memoizeWithMaxSize] is [memoizeWithMaxSize]. *)
Lemma memoizeWithMaxSize_without_nested_calls {Ext : Type}
    (fn : list jsval -> Ext -> outcome * Ext) (fn_name : string)
    (fuel : nat) (maxSize : Z) (cache : list (string * jsval))
    (args : list jsval) (w : World Ext (list jsval)) :
  NestedCalls.memoizeWithMaxSize (NestedCalls.not_calling_back fn) fn_name
    (S fuel) maxSize args (cache, w)
  = Some (let '(o, c, w') := memoizeWithMaxSize fn fn_name maxSize cache args w in
          (o, (c, w'))).
Proof.
  unfold memoizeWithMaxSize, invoke. simpl.
  unfold NestedCalls.not_calling_back, enter, with_env. simpl.
  destruct (Map_has (JSON_stringify args) cache);
    (destruct (fn args (env w)) as [[r | e] e']; simpl; [| done]).
  - done.
  - destruct (Z.of_nat _ >? maxSize); [| done].
    by destruct (Map_first_key _).
Qed.

(** C8 at [f = memoizeWithMaxSize(countDown, 1)], where [countDown(n)]
    calls [f(n - 1)]: the first [f(1)] leaves the one entry [[1]]; the second
    [f(1)] finds it, deletes it, runs [countDown(1)] again, whose call [f(0)]
    stores [[0]], and then stores [[1]] again on the cache-hit path, where the
    size is not checked: the call returns with two entries in a store whose
    [maxSize] is 1. *)
Theorem C8_maxSize_exceeded_after_a_nested_call :
  NestedCalls.memoizeWithMaxSize NestedCalls.countDown "countDown" 5 1
    [JNum 1] ([], world0 tt)
  = Some (Returned (JNum 1),
          ([("[1]", JNum 1)],
           {| env := tt;
              invoked := [[JNum 1]; [JNum 0]];
              console := ["  [computing] countDown(1)";
                          "  [computing] countDown(0)"; "  [evicted] [0]"] |}))
  /\ NestedCalls.memoizeWithMaxSize NestedCalls.countDown "countDown" 5 1
       [JNum 1]
       ([("[1]", JNum 1)],
        {| env := tt;
           invoked := [[JNum 1]; [JNum 0]];
           console := ["  [computing] countDown(1)";
                       "  [computing] countDown(0)"; "  [evicted] [0]"] |})
     = Some (Returned (JNum 1),
             ([("[0]", JNum 0); ("[1]", JNum 1)],
              {| env := tt;
                 invoked := [[JNum 1]; [JNum 0]; [JNum 1]; [JNum 0]];
                 console := ["  [computing] countDown(1)";
                             "  [computing] countDown(0)"; "  [evicted] [0]";
                             "  [cache hit] [1]";
                             "  [computing] countDown(0)"] |}))
  /\ 1 < Z.of_nat (Map_size [("[0]", JNum 0); ("[1]", JNum 1)]).
Proof. repeat split; reflexivity. Qed.

(** With [maxSize = 1] a hit cannot protect the only entry: the hit
    (whose recomputation returns) puts the key back alone, and the
    insertion of a new key that follows evicts it. *)
Lemma maxSize_one_evicts_the_key_just_hit {Ext : Type}
    (fn : list jsval -> Ext -> outcome * Ext) (fn_name : string)
    (args args2 : list jsval) (v : jsval) (w : World Ext (list jsval))
    (outs : list outcome) (c' : list (string * jsval))
    (w' : World Ext (list jsval)) :
  JSON_stringify args2 <> JSON_stringify args ->
  run (memoizeWithMaxSize fn fn_name 1) [args; args2]
      [(JSON_stringify args, v)] w = (outs, c', w') ->
  Forall is_Returned outs ->
  Map_keys c' = [JSON_stringify args2].
Proof.
  intros Hne Hrun Hret. rewrite !run_cons in Hrun.
  assert (Map_has (JSON_stringify args) [(JSON_stringify args, v)] = true) as Hh
    by (unfold Map_has; simpl; by rewrite decide_True).
  assert (Map_delete (JSON_stringify args) [(JSON_stringify args, v)] = [])
    as Hdel by (simpl; by rewrite decide_True).
  rewrite (memoizeWithMaxSize_present fn fn_name 1 _ _ _ Hh), Hdel in Hrun.
  destruct (invoke fn args _) as [[r | e] w1].
  - cbv beta iota zeta in Hrun. rewrite run_cons in Hrun.
    change (Map_set (JSON_stringify args) r [])
      with [(JSON_stringify args, r)] in Hrun.
    assert (Map_has (JSON_stringify args2) [(JSON_stringify args, r)] = false)
      as Hh2 by (unfold Map_has; simpl; by rewrite decide_False).
    rewrite (memoizeWithMaxSize_absent fn fn_name 1 _ _ _ Hh2) in Hrun.
    destruct (invoke fn args2 _) as [[r2 | e2] w2].
    + simpl in Hrun. by injection Hrun as _ <- _.
    + simpl in Hrun. injection Hrun as <- _ _.
      apply Forall_cons in Hret as [_ Hret].
      apply Forall_cons in Hret as [[] _].
  - cbv beta iota zeta in Hrun. rewrite run_cons in Hrun.
    destruct (memoizeWithMaxSize fn fn_name 1 [] args2 w1) as [[o2 c2] w2].
    simpl in Hrun. injection Hrun as <- _ _. apply Forall_cons in Hret as [[] _].
Qed.

(** ** Keys of safe integers in [memoize] *)

Section MemoizeIntegerArguments.
Context {Ext : Type}.
Variable fn : list jsval -> Ext -> outcome * Ext.
Variable fn_name : string.
Local Abbreviation W := (World Ext (list jsval)).

(** X1: [memoize] keeps calls with different safe-integer arguments
    apart (negative zero, which is keyed as 0, is no safe integer here): two
    different lists of safe integers derive different keys, so a call with
    one of them does not fill the slot of the other, and a later call with
    the other -- [(3, 2)] after [(2, 3)] -- runs the wrapped function. *)
Theorem X1_memoize_keeps_distinct_safe_integer_arguments_apart
    (cache c1 : gmap string jsval) (l1 l2 : list Z) (w w1 w2 : W) (o : outcome) :
  Forall safe_integer l1 -> Forall safe_integer l2 -> l1 <> l2 ->
  cache !! JSON_stringify (map JNum l2) = None ->
  memoize fn fn_name cache (map JNum l1) w = (o, c1, w1) ->
  JSON_stringify (map JNum l1) <> JSON_stringify (map JNum l2)
  /\ c1 !! JSON_stringify (map JNum l2) = None
  /\ invoked (snd (memoize fn fn_name c1 (map JNum l2) w2))
     = invoked w2 ++ [map JNum l2].
Proof.
  intros _ _ Hne Hnone Hcall.
  assert (JSON_stringify (map JNum l1) <> JSON_stringify (map JNum l2)) as Hkeys.
  { rewrite !JSON_stringify_integers. intros Heq. injection Heq as Heq.
    by apply integers_text_inj in Heq. }
  assert (c1 !! JSON_stringify (map JNum l2) = None) as Hnone1.
  { revert Hcall. unfold memoize.
    destruct (cache !! JSON_stringify (map JNum l1)); [by intros [= _ <- _] |].
    destruct (invoke fn (map JNum l1) _) as [[r | e] w3]; intros [= _ <- _];
      [| done].
    by rewrite lookup_insert_ne. }
  split; [done |]. split; [done |].
  unfold memoize. rewrite Hnone1.
  destruct (invoke fn (map JNum l2) _) as [o2 w3] eqn:Hi.
  apply invoke_invoked in Hi as (Hinv & _ & _). simpl in Hinv.
  by destruct o2.
Qed.
End MemoizeIntegerArguments.

Lemma X1_witness :
  JSON_stringify (map JNum [2; 3]) <> JSON_stringify (map JNum [3; 2])
  /\ snd (fst (memoize getUserById "getUserById" ∅ (map JNum [2; 3]) (world0 tt)))
       !! JSON_stringify (map JNum [3; 2]) = None
  /\ invoked (snd (memoize getUserById "getUserById"
                     (snd (fst (memoize getUserById "getUserById" ∅
                                  (map JNum [2; 3]) (world0 tt))))
                     (map JNum [3; 2]) (world0 tt)))
     = [] ++ [map JNum [3; 2]].
Proof.
  apply (X1_memoize_keeps_distinct_safe_integer_arguments_apart getUserById
           "getUserById" ∅ _ [2; 3] [3; 2] (world0 tt)
           (snd (memoize getUserById "getUserById" ∅ (map JNum [2; 3]) (world0 tt)))
           (world0 tt)
           (fst (fst (memoize getUserById "getUserById" ∅ (map JNum [2; 3])
                        (world0 tt))))).
  - repeat constructor; unfold safe_integer; lia.
  - repeat constructor; unfold safe_integer; lia.
  - discriminate.
  - reflexivity.
  - reflexivity.
Defined.

(** ** The [Map]-based [memoize] around a function that may call it *)

Section NestedMapMemoize.
Context {Ext K R : Type} `{EqDecision K}.
Variable fn :
  (K -> list (K * R) * World Ext K ->
   option (result_of R * (list (K * R) * World Ext K))) ->
  K -> list (K * R) * World Ext K ->
  option (result_of R * (list (K * R) * World Ext K)).

Lemma nested_memoize_hit (fuel : nat) (arg : K) (cache : list (K * R))
    (w : World Ext K) (v : R) :
  Map_get arg cache = Some v ->
  NestedCalls.memoize fn (S fuel) arg (cache, w) = Some (Ret v, (cache, w)).
Proof. intros Hg. simpl. by rewrite Hg. Qed.

Lemma nested_memoize_miss (fuel : nat) (arg : K) (cache c' : list (K * R))
    (w w' : World Ext K) (r : R) :
  Map_get arg cache = None ->
  fn (NestedCalls.memoize fn fuel) arg (cache, enter arg w) = Some (Ret r, (c', w')) ->
  NestedCalls.memoize fn (S fuel) arg (cache, w)
  = Some (Ret r, (Map_set arg r c', w')).
Proof. intros Hg Hf. simpl. by rewrite Hg, Hf. Qed.

(** X15: whatever the wrapped function does -- it may call the memoized
    function itself, as [fib] does, and so store other entries on the way --
    the value that a call of the [Map]-based [memoize] returned is stored
    under its argument when the call returns: the same call made again on
    that store returns the same value without running the wrapped function
    and changes nothing. *)
Theorem X15_map_memoize_serves_what_it_returned
    (fuel fuel2 : nat) (arg : K) (cache c1 : list (K * R))
    (w w1 w2 : World Ext K) (v : R) :
  NestedCalls.memoize fn fuel arg (cache, w) = Some (Ret v, (c1, w1)) ->
  NestedCalls.memoize fn (S fuel2) arg (c1, w2) = Some (Ret v, (c1, w2)).
Proof.
  intros Hcall. apply nested_memoize_hit.
  destruct fuel as [| fuel]; [discriminate Hcall |]. simpl in Hcall.
  destruct (Map_get arg cache) as [v0 |] eqn:Hg.
  - by injection Hcall as <- <- _.
  - destruct (fn _ arg _) as [[[r | e] [c' w']] |]; [| discriminate..].
    injection Hcall as <- <- _. apply Map_get_set.
Qed.
End NestedMapMemoize.

(** ** The memoized [fib] *)

Lemma Fibonacci_SS (n : nat) :
  Fibonacci (S (S n)) = Fibonacci (S n) + Fibonacci n.
Proof.
  unfold Fibonacci. simpl. destruct (Fibonacci_pair n) as [a b]. simpl. lia.
Qed.

Lemma Fibonacci_pair_ordered (n : nat) :
  0 <= fst (Fibonacci_pair n) <= snd (Fibonacci_pair n).
Proof.
  induction n as [| n IH]; simpl; [lia |].
  destruct (Fibonacci_pair n) as [a b]. simpl in *. lia.
Qed.

Lemma Fibonacci_S_le (n : nat) : 0 <= Fibonacci n <= Fibonacci (S n).
Proof.
  pose proof (Fibonacci_pair_ordered n) as Ho. unfold Fibonacci. simpl.
  destruct (Fibonacci_pair n) as [a b]. simpl in *. lia.
Qed.

Lemma Fibonacci_mono (n m : nat) : (n <= m)%nat -> Fibonacci n <= Fibonacci m.
Proof.
  induction 1 as [| m _ IH]; [lia |].
  pose proof (Fibonacci_S_le m). lia.
Qed.

Lemma Map_get_app {K V : Type} `{EqDecision K} (k : K) (m1 m2 : list (K * V)) :
  Map_get k (m1 ++ m2)
  = match Map_get k m1 with
    | Some v => Some v
    | None => Map_get k m2
    end.
Proof.
  induction m1 as [| [k' v'] m1 IH]; simpl; [done |].
  by destruct (decide (k' = k)).
Qed.

Lemma fib_store_S (m : nat) :
  (2 <= m)%nat ->
  fib_store (S m) = fib_store m ++ [(Z.of_nat (S m), Fibonacci (S m))].
Proof. intros Hm. destruct m as [| [| m]]; [lia | lia | reflexivity]. Qed.

(** After [fib(m)], [m >= 2], the store holds the Fibonacci numbers of
    0..m and nothing else. *)
Lemma fib_store_get (m : nat) :
  (2 <= m)%nat ->
  forall k : nat,
    Map_get (Z.of_nat k) (fib_store m)
    = if (k <=? m)%nat then Some (Fibonacci k) else None.
Proof.
  induction m as [| m IH]; intros Hm k; [lia |].
  destruct (decide (m = 1%nat)) as [-> | Hm1].
  - destruct k as [| [| [| k]]]; [reflexivity.. |].
    simpl. rewrite !decide_False by lia. done.
  - rewrite fib_store_S by lia. rewrite Map_get_app, IH by lia.
    destruct (Nat.leb_spec k m) as [Hle | Hgt].
    + destruct (Nat.leb_spec k (S m)); [done | lia].
    + simpl. destruct (decide (Z.of_nat (S m) = Z.of_nat k)) as [Heq | Hne].
      * apply Nat2Z.inj in Heq as <-.
        destruct (Nat.leb_spec (S m) (S m)); [done | lia].
      * destruct (Nat.leb_spec k (S m)); [lia | done].
Qed.

Lemma fib_runs_S (m : nat) :
  (2 <= m)%nat -> fib_runs (S m) = Z.of_nat (S m) :: fib_runs m.
Proof.
  intros Hm. destruct m as [| [| m]]; [lia | lia |].
  unfold fib_runs. rewrite (seq_S (S (S (S m)))), rev_app_distr. reflexivity.
Qed.

Lemma fib_runs_length (n : nat) : (2 <= n)%nat -> length (fib_runs n) = S n.
Proof.
  intros Hn. destruct n as [| [| n]]; [lia | lia |].
  unfold fib_runs. by rewrite length_map, length_rev, length_seq.
Qed.

Lemma nested_memoize_unfold {Ext K R : Type} `{EqDecision K}
    (fn : (K -> list (K * R) * World Ext K ->
           option (result_of R * (list (K * R) * World Ext K))) ->
          K -> list (K * R) * World Ext K ->
          option (result_of R * (list (K * R) * World Ext K)))
    (fuel : nat) (arg : K) (cache : list (K * R)) (w : World Ext K) :
  NestedCalls.memoize fn (S fuel) arg (cache, w)
  = match Map_get arg cache with
    | Some v => Some (Ret v, (cache, w))
    | None =>
        match fn (NestedCalls.memoize fn fuel) arg (cache, enter arg w) with
        | None => None
        | Some (Ret result, (cache, w)) =>
            Some (Ret result, (Map_set arg result cache, w))
        | Some (Throw e, st) => Some (Throw e, st)
        end
    end.
Proof. reflexivity. Qed.

(** [fib(n)] on a new wrapper, [n >= 1]: the calls go down to [fib(1)]
    with nothing stored yet, and on the way back every [fib(k - 2)] is found
    in the store. *)
Lemma fib_on_a_new_wrapper {Ext : Type} (n : nat) :
  (1 <= n)%nat ->
  forall (fuel : nat) (w : World Ext Z),
    (n <= fuel)%nat ->
    NestedCalls.fib fuel (Z.of_nat n) ([], w)
    = Some (Ret (Fibonacci n),
            (fib_store n,
             {| env := env w; invoked := invoked w ++ fib_runs n;
                console := console w |})).
Proof.
  induction n as [| n IH]; [lia |]. intros _ fuel w Hfuel.
  destruct fuel as [| f]; [lia |].
  destruct (decide (n = 0%nat)) as [-> | Hn0]; [reflexivity |].
  destruct (decide (n = 1%nat)) as [-> | Hn1].
  { destruct f as [| f]; [lia |].
    unfold NestedCalls.fib, fib_runs. simpl. unfold enter. simpl.
    by rewrite <- !app_assoc. }
  assert (2 <= n)%nat as Hn2 by lia.
  unfold NestedCalls.fib in *. rewrite nested_memoize_unfold.
  change (Map_get (Z.of_nat (S n)) []) with (@None Z).
  set (F := NestedCalls.memoize NestedCalls.fib_body f) in *.
  unfold NestedCalls.fib_body.
  destruct (Z.leb_spec (Z.of_nat (S n)) 1) as [Hle | _]; [lia |].
  replace (Z.of_nat (S n) - 1) with (Z.of_nat n) by lia.
  replace (Z.of_nat (S n) - 2) with (Z.of_nat (n - 1)) by lia.
  unfold F. rewrite (IH ltac:(lia) f (enter (Z.of_nat (S n)) w) ltac:(lia)).
  destruct f as [| f']; [lia |].
  rewrite (nested_memoize_hit NestedCalls.fib_body f' (Z.of_nat (n - 1))
             (fib_store n) _ (Fibonacci (n - 1))).
  2: { rewrite (fib_store_get n Hn2).
       destruct (Nat.leb_spec (n - 1) n); [done | lia]. }
  rewrite fib_store_S, fib_runs_S by done.
  rewrite Map_set_fresh.
  2: { apply Map_get_None. rewrite (fib_store_get n Hn2).
       destruct (Nat.leb_spec (S n) n); [lia | done]. }
  assert (Fibonacci n + Fibonacci (n - 1) = Fibonacci (S n)) as ->.
  { destruct n as [| n']; [lia |].
    replace (S n' - 1)%nat with n' by lia. by rewrite Fibonacci_SS. }
  unfold enter. simpl. by rewrite <- app_assoc.
Qed.

(** X24: the memoized [fib] of the Map and Set notes, called with an
    integer [n] from 2 to 78 on a new wrapper, returns the [n]-th Fibonacci
    number (which is below 2^53, so the additions are exact) after running
    the wrapped function [n + 1] times -- once for each of [n, n - 1, ..., 0],
    in this order -- and leaves one entry for each of them in the store. *)
Theorem X24_memoized_fib_runs_once_per_number
    {Ext : Type} (n fuel : nat) (w : World Ext Z) :
  (2 <= n <= 78)%nat -> (n <= fuel)%nat ->
  NestedCalls.fib fuel (Z.of_nat n) ([], w)
  = Some (Ret (Fibonacci n),
          (fib_store n,
           {| env := env w; invoked := invoked w ++ fib_runs n;
              console := console w |}))
  /\ length (fib_runs n) = S n
  /\ length (fib_store n) = S n
  /\ 0 <= Fibonacci n < 2 ^ 53.
Proof.
  intros [Hn2 Hn78] Hfuel. split; [apply fib_on_a_new_wrapper; lia |].
  split; [by apply fib_runs_length |]. split.
  - clear Hn78 Hfuel. induction n as [| n IH]; [lia |].
    destruct (decide (n = 1%nat)) as [-> | Hn1]; [reflexivity |].
    rewrite fib_store_S, length_app by lia. rewrite IH by lia. simpl. lia.
  - pose proof (Fibonacci_S_le n) as [H0 _].
    pose proof (Fibonacci_mono n 78 Hn78) as Hle.
    assert (Fibonacci 78 < 2 ^ 53) as Hmax by (vm_compute; reflexivity). lia.
Qed.

Lemma X24_witness :
  NestedCalls.fib 10 (Z.of_nat 10) ([], world0 tt)
  = Some (Ret (Fibonacci 10),
          (fib_store 10,
           {| env := env (world0 tt : World unit Z);
              invoked := invoked (world0 tt : World unit Z) ++ fib_runs 10;
              console := console (world0 tt : World unit Z) |}))
  /\ length (fib_runs 10) = 11%nat
  /\ length (fib_store 10) = 11%nat
  /\ 0 <= Fibonacci 10 < 2 ^ 53.
Proof.
  apply (X24_memoized_fib_runs_once_per_number 10 10 (world0 tt)); lia.
Defined.

Example memoized_fib_10 :
  NestedCalls.fib 10 10 ([], world0 tt)
  = Some (Ret 55,
          ([(1, 1); (0, 0); (2, 1); (3, 2); (4, 3); (5, 5); (6, 8); (7, 13);
            (8, 21); (9, 34); (10, 55)],
           {| env := tt; invoked := [10; 9; 8; 7; 6; 5; 4; 3; 2; 1; 0];
              console := [] |})).
Proof. reflexivity. Qed.

Lemma X15_witness :
  NestedCalls.fib 1 5 (fib_store 5, world0 tt)
  = Some (Ret 5, (fib_store 5, world0 tt)).
Proof.
  apply (X15_map_memoize_serves_what_it_returned NestedCalls.fib_body 5 0 5
           [] (fib_store 5) (world0 tt)
           {| env := tt; invoked := [5; 4; 3; 2; 1; 0]; console := [] |}
           (world0 tt) 5).
  reflexivity.
Defined.

(** With a wrapped function that does not call the wrapper,
    [NestedCalls.memoize] is [MapMemo.memoize]. *)
Lemma MapMemo_memoize_without_nested_calls {Ext K : Type} `{EqDecision K}
    (fn : K -> Ext -> outcome * Ext) (fuel : nat) (arg : K)
    (cache : list (K * jsval)) (w : World Ext K) :
  NestedCalls.memoize
    (fun _ a st =>
       let '(c, w0) := st in
       let '(o, e') := fn a (env w0) in
       Some (match o with
             | Returned v => Ret v
             | Thrown e => Throw e
             end, (c, with_env e' w0)))
    (S fuel) arg (cache, w)
  = Some (let '(o, c, w') := MapMemo.memoize fn cache arg w in
          (match o with
           | Returned v => Ret v
           | Thrown e => Throw e
           end, (c, w'))).
Proof.
  unfold MapMemo.memoize, Map_has, invoke. simpl.
  destruct (Map_get arg cache) as [v |]; simpl; [done |].
  by destruct (fn arg (env w)) as [[r | e] e'].
Qed.
